(** * Publ content indexer (publ/index.py): a shallow embedding

    The indexer owns a one-worker thread pool, a lock-protected set of
    pending work items and the handle of the last submitted drain task.
    Threads interleave at lock granularity, so the scheduler is modelled
    as a transition system whose steps are the critical sections of
    [Indexer.scan_file], [Indexer._schedule] and [Indexer._scan_pending].
    The file system, the clock-dependent collaborators (the entry and
    category scanners, [utils.file_fingerprint], [os.stat],
    [os.path.isfile]) and the iteration order of a Python [set] are
    oracles indexed by a logical clock. *)

From stdpp Require Import gmap strings list sorting.
From Stdlib Require Import Ascii String ZArith QArith Lia.

Open Scope string_scope.
Open Scope list_scope.
Open Scope nat_scope.

(** ** Python values that the indexer observes *)

(** Exceptions that can cross the functions embedded here. *)
Inductive exn :=
| FileNotFoundError
| MultipleObjectsFoundError   (* pony: [Entity.get] matched several rows *)
| CacheIndexError             (* pony: a second instance for a unique key *)
| OtherError (msg : string).  (* any other [Exception] *)

(** The outcome of a call that may raise. *)
Inductive result (A : Type) :=
| Ok (a : A)
| Raise (e : exn).
Arguments Ok {A} a.
Arguments Raise {A} e.

(** Sequencing stops at the first exception ([x ← m; k]). *)
#[global] Instance result_bind : MBind result := fun A B k m =>
  match m with
  | Ok a => k a
  | Raise e => Raise e
  end.

(** What a scanner hands back: a truthy record, [False] or [None]. *)
Inductive scan_value :=
| PyRecord (id : nat)
| PyFalse
| PyNone.

(** [result is False] *)
Definition is_False (v : scan_value) : bool :=
  match v with
  | PyFalse => true
  | _ => false
  end.

(** A Python float is only stored or tested for truth here. *)
Definition pyfloat : Type := Q.

Definition float_truthy (x : pyfloat) : bool := negb (Qnum x =? 0)%Z.

(** ** [os.path.splitext] (posixpath, through genericpath._splitext) *)

Fixpoint rfind_from (c : ascii) (s : string) (i acc : Z) : Z :=
  match s with
  | EmptyString => acc
  | String a s' => rfind_from c s' (i + 1)%Z (if Ascii.eqb a c then i else acc)
  end.

(** [p.rfind(c)]: the index of the last occurrence, or -1. *)
Definition rfind (c : ascii) (p : string) : Z := rfind_from c p 0%Z (-1)%Z.

(** [p[:i]] and [p[i:]] for [0 <= i]. *)
Definition slice_to (p : string) (i : Z) : string :=
  substring 0 (Z.to_nat i) p.
Definition slice_from (p : string) (i : Z) : string :=
  substring (Z.to_nat i) (String.length p - Z.to_nat i) p.

(** The [while filenameIndex < dotIndex] loop that skips leading dots:
    [true] when a character other than the dot is met before [dotIndex]. *)
Fixpoint has_stem (fuel : nat) (p : string) (filenameIndex dotIndex : Z) : bool :=
  match fuel with
  | O => false
  | S fuel' =>
      if (filenameIndex <? dotIndex)%Z then
        match String.get (Z.to_nat filenameIndex) p with
        | Some a =>
            if Ascii.eqb a "."%char
            then has_stem fuel' p (filenameIndex + 1)%Z dotIndex
            else true
        | None => true
        end
      else false
  end.

Definition splitext (p : string) : string * string :=
  let sepIndex := rfind "/"%char p in
  let dotIndex := rfind "."%char p in
  if (sepIndex <? dotIndex)%Z
     && has_stem (String.length p) p (sepIndex + 1)%Z dotIndex
  then (slice_to p dotIndex, slice_from p dotIndex)
  else (p, "").

Definition ENTRY_TYPES : list string := [".md"; ".htm"; ".html"].
Definition CATEGORY_TYPES : list string := [".cat"; ".meta"].

(** [ext in TYPES] *)
Definition ext_in (ext : string) (types : list string) : bool :=
  bool_decide (ext ∈ types).

Definition is_scannable (fullpath : string) : bool :=
  let ext := (splitext fullpath).2 in
  ext_in ext ENTRY_TYPES || ext_in ext CATEGORY_TYPES.

(** ** The persisted tables *)

(** [model.FileFingerprint]: one row per known file. *)
Record FileFingerprint := mkFileFingerprint {
  file_path : string;
  fingerprint : string;
  file_mtime : pyfloat
}.

(** A work item of the indexer: (fullpath, relpath, fixups). *)
Definition QUEUE_ITEM : Type := string * option string * bool.

(** ** The collaborators outside index.py

    Each oracle takes the logical time of the call, so that the file system
    and the scanners may answer differently from one call to the next. *)
Record environment := mkEnvironment {
  (** [entry.scan_file(fullpath, relpath, fixups)] *)
  entry_scan_file : nat -> string -> option string -> bool -> result scan_value;
  (** [category.scan_file(fullpath, relpath)] *)
  category_scan_file : nat -> string -> option string -> result scan_value;
  (** [utils.file_fingerprint(fullpath)] *)
  file_fingerprint : nat -> string -> result string;
  (** [os.stat(fullpath).st_mtime] *)
  os_stat_mtime : nat -> string -> result pyfloat;
  (** [os.path.isfile(path)] *)
  os_path_isfile : nat -> string -> bool;
  (** Python leaves the iteration order of a set open: the items of a
      snapshot are visited by increasing rank, whatever the ranking is. *)
  iteration_rank : nat -> QUEUE_ITEM -> nat;
  (** whether the schema declares [file_path] a unique key of
      [FileFingerprint] (the entity declaration is in model.py) *)
  unique_file_path : bool;
  (** [Indexer(wait_time)] *)
  wait_time : pyfloat
}.

Section Table.
Context {row : Type} (path_of : row -> string).

(** The rows selected by [file_path == path]. *)
Definition select_path (path : string) (table : list row) : list row :=
  filter (fun r => path_of r = path) table.

(** [table.get(file_path=path)]: the row, [None], or an exception when
    several rows match. *)
Definition table_get (path : string) (table : list row) : result (option row) :=
  match select_path path table with
  | [] => Ok None
  | [r] => Ok (Some r)
  | _ :: _ :: _ => Raise MultipleObjectsFoundError
  end.

(** Deleting the rows of a path ([item.delete()] on the row that [get]
    returned, or [orm.delete] of the rows with that [file_path]). *)
Definition delete_path (path : string) (table : list row) : list row :=
  filter (fun r => path_of r ≠ path) table.

Context (env : environment).

(** The read phase of [prune_missing]: the paths of the rows whose file
    is not there when the row is visited. *)
Fixpoint fill (now : nat) (rows : list row) : list string :=
  match rows with
  | [] => []
  | item :: rows' =>
      if negb (os_path_isfile env now (path_of item))
      then path_of item :: fill (S now) rows'
      else fill (S now) rows'
  end.

(** The delete phase for one collected path; an exception is logged. *)
Definition kill (now : nat) (path : string) (table : list row) : list row :=
  match table_get path table with
  | Ok (Some item) =>
      if negb (os_path_isfile env now (path_of item))
      then delete_path (path_of item) table
      else table
  | Ok None => table
  | Raise _ => table
  end.

(** [for item in removed_paths: kill(item)] *)
Fixpoint kill_each (now : nat) (removed_paths : list string) (table : list row)
  : list row :=
  match removed_paths with
  | [] => table
  | path :: paths => kill_each (S now) paths (kill now path table)
  end.

Definition prune_missing (now : nat) (table : list row) : list row :=
  kill_each (now + List.length table) (fill now table) table.

End Table.

Section Fingerprints.
Context (env : environment).

(** [record.set(fingerprint=..., file_mtime=...)] on the row of [path]. *)
Definition record_set (path fp : string) (mtime : pyfloat)
    (table : list FileFingerprint) : list FileFingerprint :=
  map (fun r => if bool_decide (file_path r = path)
                then mkFileFingerprint (file_path r) fp mtime
                else r) table.

(** [model.FileFingerprint(file_path=..., fingerprint=..., file_mtime=...)]:
    a new row; refused when [file_path] is a unique key already taken. *)
Definition record_create (path fp : string) (mtime : pyfloat)
    (table : list FileFingerprint) : result (list FileFingerprint) :=
  if unique_file_path env
     && bool_decide (select_path file_path path table ≠ [])
  then Raise CacheIndexError
  else Ok (table ++ [mkFileFingerprint path fp mtime]).

(** A string argument is falsy when it is [None] or empty. *)
Definition str_truthy (s : option string) : option string :=
  match s with
  | Some "" => None
  | other => other
  end.

(** The body of the [try] of [set_fingerprint]; [given] is its optional
    [fingerprint] argument. *)
Definition set_fingerprint_try (now : nat) (fullpath : string)
    (given : option string) (table : list FileFingerprint)
  : result (list FileFingerprint) :=
  fp ← match str_truthy given with
       | Some f => Ok f
       | None => file_fingerprint env now fullpath
       end;
  record ← table_get file_path fullpath table;
  let changed :=
    match record with
    | Some r => negb (String.eqb (fingerprint r) fp)
    | None => false
    end in
  if changed then
    mtime ← os_stat_mtime env now fullpath;
    Ok (record_set fullpath fp mtime table)
  else
    mtime ← os_stat_mtime env now fullpath;
    record_create fullpath fp mtime table.

(** [set_fingerprint(fullpath, fingerprint=None)] under its [db_session]:
    a missing file deletes the rows of the path; any other exception leaves
    the session and the table is as it was. *)
Definition set_fingerprint (now : nat) (fullpath : string)
    (given : option string) (table : list FileFingerprint)
  : result unit * list FileFingerprint :=
  match set_fingerprint_try now fullpath given table with
  | Ok table' => (Ok tt, table')
  | Raise FileNotFoundError => (Ok tt, delete_path file_path fullpath table)
  | Raise e => (Raise e, table)
  end.

(** [get_last_fingerprint(fullpath)] *)
Definition get_last_fingerprint (fullpath : string)
    (table : list FileFingerprint) : result (option string) :=
  match table_get file_path fullpath table with
  | Ok (Some record) => Ok (Some (fingerprint record))
  | Ok None => Ok None
  | Raise e => Raise e
  end.

End Fingerprints.

(** ** The scheduler *)

(** What sits in the work queue of the one-worker thread pool. *)
Inductive task :=
| TSleep (wait : pyfloat)      (* [submit(time.sleep, wait)] *)
| TScanPending (handle : nat)  (* [submit(self._scan_pending)], with its Future *)
| TSchedule                    (* [submit(self._schedule)] *)
| TScanDirectory               (* [submit(scan_directory, root, files)] *)
| TPruneFingerprints           (* [submit(prune_missing, model.FileFingerprint)] *)
| TPruneOther.                 (* [submit(prune_missing, table)], another table *)

(** Where the worker thread stands. *)
Inductive worker_pc :=
| Idle
  (* in the [for] loop of [_scan_pending]: the snapshot and what is left *)
| Draining (handle : nat) (items : gset QUEUE_ITEM) (todo : list QUEUE_ITEM)
  (* in [_scan_file], between the two locked sections of [self.scan_file] *)
| Rescheduling (handle : nat) (items : gset QUEUE_ITEM) (todo : list QUEUE_ITEM)
  (* [_scan_pending] has returned, its Future is not yet done *)
| Returning (handle : nat).

Inductive event :=
| Swapped (handle : nat) (batch : list QUEUE_ITEM)  (* "Processing %d files" *)
| Scanned (item : QUEUE_ITEM) (result : scan_value) (* one [_scan_file] call *)
| Failed (handle : nat) (e : exn).                  (* "_scan_pending failed" *)

Record state := mkState {
  _pending : gset QUEUE_ITEM;          (* [self._pending] *)
  _running : option nat;               (* [self._running] *)
  finished : gset nat;                 (* the Futures whose [done()] holds *)
  next_handle : nat;                   (* the Future the next submit returns *)
  work_queue : list task;              (* [thread_pool._work_queue] *)
  worker : worker_pc;
  callers : nat;                       (* threads inside [scan_file], past the add *)
  fingerprints : list FileFingerprint; (* the [FileFingerprint] table *)
  clock : nat;
  history : list event
}.

Definition init : state :=
  mkState ∅ None ∅ 0 [] Idle 0 [] 0 [].

Definition set_pending (v : gset QUEUE_ITEM) (s : state) : state :=
  mkState v (_running s) (finished s) (next_handle s) (work_queue s) (worker s)
          (callers s) (fingerprints s) (clock s) (history s).
Definition set_work_queue (v : list task) (s : state) : state :=
  mkState (_pending s) (_running s) (finished s) (next_handle s) v (worker s)
          (callers s) (fingerprints s) (clock s) (history s).
Definition set_worker (v : worker_pc) (s : state) : state :=
  mkState (_pending s) (_running s) (finished s) (next_handle s) (work_queue s) v
          (callers s) (fingerprints s) (clock s) (history s).
Definition set_finished (v : gset nat) (s : state) : state :=
  mkState (_pending s) (_running s) v (next_handle s) (work_queue s) (worker s)
          (callers s) (fingerprints s) (clock s) (history s).
Definition set_callers (v : nat) (s : state) : state :=
  mkState (_pending s) (_running s) (finished s) (next_handle s) (work_queue s)
          (worker s) v (fingerprints s) (clock s) (history s).
Definition set_fingerprints (v : list FileFingerprint) (s : state) : state :=
  mkState (_pending s) (_running s) (finished s) (next_handle s) (work_queue s)
          (worker s) (callers s) v (clock s) (history s).
Definition set_clock (v : nat) (s : state) : state :=
  mkState (_pending s) (_running s) (finished s) (next_handle s) (work_queue s)
          (worker s) (callers s) (fingerprints s) v (history s).
Definition record_events (evs : list event) (s : state) : state :=
  mkState (_pending s) (_running s) (finished s) (next_handle s) (work_queue s)
          (worker s) (callers s) (fingerprints s) (clock s) (history s ++ evs).
(** [self._running = self.thread_pool.submit(self._scan_pending)] *)
Definition submit_scan_pending (s : state) : state :=
  mkState (_pending s) (Some (next_handle s)) (finished s) (S (next_handle s))
          (work_queue s ++ [TScanPending (next_handle s)]) (worker s)
          (callers s) (fingerprints s) (clock s) (history s).

(** The arguments a scanner is called with. *)
Inductive scanner_call :=
| EntryScan (fullpath : string) (relpath : option string) (fixups : bool)
| CategoryScan (fullpath : string) (relpath : option string).

(** The routing of [do_scan]: which scanner, with which arguments. *)
Definition route (item : QUEUE_ITEM) : option scanner_call :=
  let '(fullpath, relpath, fixups) := item in
  let ext := (splitext fullpath).2 in
  if ext_in ext ENTRY_TYPES then Some (EntryScan fullpath relpath fixups)
  else if ext_in ext CATEGORY_TYPES then Some (CategoryScan fullpath relpath)
  else None.

(** The positional arguments of a call, as Python values. *)
Inductive pyarg :=
| AStr (s : string)
| AOptStr (s : option string)
| ABool (b : bool).

Definition call_args (c : scanner_call) : list pyarg :=
  match c with
  | EntryScan fullpath relpath fixups => [AStr fullpath; AOptStr relpath; ABool fixups]
  | CategoryScan fullpath relpath => [AStr fullpath; AOptStr relpath]
  end.

Section Indexer.
Context (env : environment).

Definition invoke (now : nat) (c : scanner_call) : result scan_value :=
  match c with
  | EntryScan fullpath relpath fixups =>
      entry_scan_file env now fullpath relpath fixups
  | CategoryScan fullpath relpath =>
      category_scan_file env now fullpath relpath
  end.

(** [do_scan]: an exception of the scanner becomes [False]. *)
Definition do_scan (now : nat) (item : QUEUE_ITEM) : scan_value :=
  match route item with
  | Some c =>
      match invoke now c with
      | Ok v => v
      | Raise _ => PyFalse
      end
  | None => PyNone
  end.

(** The locked section of [scan_file]: [self._pending.add(item)]. *)
Definition scan_file_add (item : QUEUE_ITEM) (s : state) : state :=
  set_pending ({[item]} ∪ _pending s) s.

(** [not self._running or self._running.done()] *)
Definition handle_free (s : state) : bool :=
  match _running s with
  | None => true
  | Some h => bool_decide (h ∈ finished s)
  end.

(** [_schedule(wait)], one locked section. *)
Definition _schedule (wait : pyfloat) (s : state) : state :=
  if handle_free s then
    let s1 := if float_truthy wait
              then set_work_queue (work_queue s ++ [TSleep wait]) s
              else s in
    submit_scan_pending s1
  else s.

(** [scan_file(fullpath, relpath, fixups)] when no other thread comes between
    its two locked sections. *)
Definition scan_file (item : QUEUE_ITEM) (s : state) : state :=
  _schedule (wait_time env) (scan_file_add item s).

(** [a] is visited no later than [b] by a loop over a set at time [now]. *)
Definition visited_before (now : nat) (a b : QUEUE_ITEM) : Prop :=
  iteration_rank env now a <= iteration_rank env now b.

#[local] Instance visited_before_dec now a b : Decision (visited_before now a b).
Proof. unfold visited_before. apply _. Defined.

(** The order in which [for item in items] visits a snapshot. *)
Definition iteration_order (now : nat) (items : gset QUEUE_ITEM)
  : list QUEUE_ITEM :=
  merge_sort (visited_before now) (elements items).

(** The locked swap at the head of [_scan_pending]. *)
Definition _scan_pending_swap (handle : nat) (s : state) : state :=
  let items := _pending s in
  let batch := iteration_order (clock s) items in
  record_events [Swapped handle batch]
    (set_worker (Draining handle items batch) (set_pending ∅ s)).

(** One call [self._scan_file( *item)] of the loop, up to the point where
    it either returns or has added the fixup item and is about to call
    [_schedule]. An exception of [set_fingerprint] leaves the loop for the
    handler of [_scan_pending]. *)
Definition _scan_file (handle : nat) (items : gset QUEUE_ITEM)
    (item : QUEUE_ITEM) (todo : list QUEUE_ITEM) (s : state) : state :=
  let result := do_scan (clock s) item in
  let '(fullpath, relpath, fixups) := item in
  if is_False result && negb fixups then
    record_events [Scanned item result]
      (set_worker (Rescheduling handle items todo)
         (scan_file_add (fullpath, relpath, true) s))
  else
    match set_fingerprint env (clock s) fullpath None (fingerprints s) with
    | (Ok _, table) =>
        record_events [Scanned item result]
          (set_worker (Draining handle items todo) (set_fingerprints table s))
    | (Raise e, table) =>
        record_events [Scanned item result; Failed handle e]
          (set_worker (Returning handle) (set_fingerprints table s))
    end.

(** After the loop: [if items: self.thread_pool.submit(self._schedule)]. *)
Definition _scan_pending_catchup (handle : nat) (items : gset QUEUE_ITEM)
    (s : state) : state :=
  let s1 := if bool_decide (items ≠ ∅)
            then set_work_queue (work_queue s ++ [TSchedule]) s
            else s in
  set_worker (Returning handle) s1.

(** The next move of the worker thread, if it has one. *)
Definition work (s : state) : option state :=
  match worker s with
  | Idle =>
      match work_queue s with
      | [] => None
      | t :: queue =>
          let s1 := set_work_queue queue s in
          Some match t with
               | TSleep _ => s1
               | TScanPending handle => _scan_pending_swap handle s1
               | TSchedule => _schedule 0%Q s1
               | TScanDirectory => s1
               | TPruneFingerprints =>
                   set_clock (clock s1 + 2 * List.length (fingerprints s1))
                     (set_fingerprints
                        (prune_missing file_path env (clock s1) (fingerprints s1))
                        s1)
               | TPruneOther => s1
               end
      end
  | Draining handle items (item :: todo) =>
      Some (_scan_file handle items item todo s)
  | Draining handle items [] =>
      Some (_scan_pending_catchup handle items s)
  | Rescheduling handle items todo =>
      Some (set_worker (Draining handle items todo) (_schedule (wait_time env) s))
  | Returning handle =>
      Some (set_worker Idle (set_finished ({[handle]} ∪ finished s) s))
  end.

(** What the threads can do. A [scan_directory] task enqueues through
    [scan_file] like any other caller, so its calls are [Call_scan_file]
    and [Call_schedule] moves too. *)
Inductive action :=
| Call_scan_file (item : QUEUE_ITEM) (* a caller runs the locked add *)
| Call_schedule                      (* and then [_schedule(self._wait_time)] *)
| Scan_index_submit (t : task)       (* [scan_index] submits a task *)
| Work.                              (* the worker thread moves *)

Definition background (t : task) : bool :=
  match t with
  | TScanDirectory | TPruneFingerprints | TPruneOther => true
  | _ => false
  end.

Definition tick (s : state) : state := set_clock (S (clock s)) s.

Definition step (a : action) (s : state) : option state :=
  match a with
  | Call_scan_file item =>
      Some (tick (set_callers (S (callers s)) (scan_file_add item s)))
  | Call_schedule =>
      match callers s with
      | O => None
      | S n => Some (tick (set_callers n (_schedule (wait_time env) s)))
      end
  | Scan_index_submit t =>
      if background t
      then Some (tick (set_work_queue (work_queue s ++ [t]) s))
      else None
  | Work => tick <$> work s
  end.

Fixpoint exec (acts : list action) (s : state) : option state :=
  match acts with
  | [] => Some s
  | a :: acts' =>
      match step a s with
      | Some s' => exec acts' s'
      | None => None
      end
  end.

(** The worker alone, for [n] moves or until it has nothing to do. *)
Fixpoint run (n : nat) (s : state) : state :=
  match n with
  | O => s
  | S n' =>
      match step Work s with
      | Some s' => run n' s'
      | None => s
      end
  end.

Inductive reachable : state -> Prop :=
| reachable_init : reachable init
| reachable_step a s s' : reachable s -> step a s = Some s' -> reachable s'.

End Indexer.

(** ** Introspection *)

(** The Python objects whose truth value the introspection functions take. *)
Inductive pyobject :=
| ObjNone
| ObjInt (n : Z)
| ObjFunction (name : string)  (* a function object *)
| ObjQueue (tasks : list task). (* the executor's queue object *)

(** [bool(o)]: neither a function nor a queue object defines [__bool__] or
    [__len__], so both are true. *)
Definition truth (o : pyobject) : bool :=
  match o with
  | ObjNone => false
  | ObjInt n => negb (n =? 0)%Z
  | ObjFunction _ => true
  | ObjQueue _ => true
  end.

(** [getattr(current_app.indexer.thread_pool, '_work_queue', None)];
    [exposed] tells whether the executor has the attribute. *)
Definition _work_queue (exposed : bool) (s : state) : pyobject :=
  if exposed then ObjQueue (work_queue s) else ObjNone.

(** [work_queue.qsize() if work_queue else None] *)
Definition queue_length (exposed : bool) (s : state) : pyobject :=
  let work_queue := _work_queue exposed s in
  if truth work_queue then
    match work_queue with
    | ObjQueue tasks => ObjInt (Z.of_nat (List.length tasks))
    | _ => ObjNone
    end
  else ObjNone.

(** [bool(queue_length)]: the function, not a call of it. *)
Definition in_progress (exposed : bool) (s : state) : bool :=
  truth (ObjFunction "queue_length").

(** ** Drain tasks in flight *)

Definition queued_drains (queue : list task) : list nat :=
  omap (fun t => match t with TScanPending h => Some h | _ => None end) queue.

Definition running_drain (w : worker_pc) : list nat :=
  match w with
  | Idle => []
  | Draining h _ _ | Rescheduling h _ _ | Returning h => [h]
  end.

(** The [_scan_pending] tasks that are submitted and not finished: the one
    the worker executes, then the queued ones. *)
Definition in_flight (s : state) : list nat :=
  running_drain (worker s) ++ queued_drains (work_queue s).

(** What the recorded handle says is in flight. *)
Definition handle_flight (s : state) : list nat :=
  match _running s with
  | Some h => if bool_decide (h ∈ finished s) then [] else [h]
  | None => []
  end.

Record invariant (s : state) : Prop := mkInvariant {
  inv_flight : in_flight s = handle_flight s;
  inv_running : forall h, _running s = Some h -> h < next_handle s;
  inv_finished : forall h, h ∈ finished s -> h < next_handle s
}.

(** ** What the history says *)

(** The [_scan_file] calls made so far, oldest first. *)
Definition scans (s : state) : list (QUEUE_ITEM * scan_value) :=
  omap (fun e => match e with Scanned item r => Some (item, r) | _ => None end)
       (history s).

(** How often [item] has been handed to [_scan_file]. *)
Definition attempts (item : QUEUE_ITEM) (s : state) : nat :=
  List.length (filter (fun x => x = item) (scans s).*1).

(** The passes that ended in the handler of [_scan_pending]. *)
Definition failures (s : state) : nat :=
  List.length (omap (fun e => match e with Failed h _ => Some h | _ => None end)
                    (history s)).

(** The passes started so far. *)
Definition passes (s : state) : nat :=
  List.length (omap (fun e => match e with Swapped h _ => Some h | _ => None end)
                    (history s)).

Arguments scans : simpl never.
Arguments attempts : simpl never.
Arguments failures : simpl never.
Arguments passes : simpl never.

(** The items the loop of the worker has still to visit. *)
Definition todo_of (w : worker_pc) : list QUEUE_ITEM :=
  match w with
  | Draining _ _ todo | Rescheduling _ _ todo => todo
  | Idle | Returning _ => []
  end.

(** The items still to be handled: pending, or left in the running loop. *)
Definition outstanding (s : state) (x : QUEUE_ITEM) : Prop :=
  x ∈ _pending s \/ x ∈ todo_of (worker s).





(** ** A concrete world to run the model in

    Entries need the fixup pass, every file is there with the same content
    except one that cannot be read, a set is visited by increasing length of
    the path, and [file_path] is a unique key. *)
Definition demo_env : environment := {|
  entry_scan_file := fun _ _ _ fixups =>
    if fixups then Ok (PyRecord 1) else Ok PyFalse;
  category_scan_file := fun _ _ _ => Ok (PyRecord 2);
  file_fingerprint := fun _ path =>
    if String.eqb path "x.txt" then Raise (OtherError "PermissionError")
    else Ok "f00d";
  os_stat_mtime := fun _ _ => Ok 1%Q;
  os_path_isfile := fun _ _ => true;
  iteration_rank := fun _ item => String.length item.1.1;
  unique_file_path := true;
  wait_time := 0.1%Q
|}.

Definition item_a : QUEUE_ITEM := ("posts/a.md", Some "a.md", false).
Definition item_b : QUEUE_ITEM := ("posts/b.md", Some "b.md", false).

(** Three callers enqueue the same item; the worker has not moved. *)
Definition burst_a : list action :=
  [Call_scan_file item_a; Call_scan_file item_a; Call_schedule;
   Call_scan_file item_a; Call_schedule; Call_schedule].

Definition after_burst_a : state := default init (exec demo_env burst_a init).


(** ** When a pending item is sure to be picked up *)

Definition has_schedule_task (queue : list task) : bool :=
  existsb (fun t => match t with TSchedule => true | _ => false end) queue.

(** A drain of the pending set is on its way without any further call: a
    submitted [_scan_pending] has not swapped yet, or a catch-up [_schedule]
    is queued, or the running pass swapped a snapshot that was not empty (and
    so will submit the catch-up). *)
Definition armed (s : state) : bool :=
  bool_decide (queued_drains (work_queue s) ≠ [])
  || has_schedule_task (work_queue s)
  || match worker s with
     | Draining _ items _ | Rescheduling _ items _ => bool_decide (items ≠ ∅)
     | Idle | Returning _ => false
     end.




(** Moves left in the running pass, counting the catch-up it may submit. *)
Definition pass_cost (w : worker_pc) : nat :=
  match w with
  | Idle => 0
  | Draining _ _ todo => 2 * List.length todo + 4
  | Rescheduling _ _ todo => 2 * List.length todo + 5
  | Returning _ => 1
  end.


(** Whether [x] is among the items a loop has still to visit. *)
Definition in_loop (x : QUEUE_ITEM) (todo : list QUEUE_ITEM) : bool :=
  bool_decide (x ∈ todo).
Arguments in_loop : simpl never.



Definition item_c : QUEUE_ITEM := ("site/blog.cat", Some "blog.cat", false).
Definition item_x : QUEUE_ITEM := ("x.txt", Some "x.txt", false).

(** A pass over [item_a] is running when a caller enqueues [item_b]. *)
Definition during_pass_acts : list action :=
  [Call_scan_file item_a; Call_schedule; Work; Work;
   Call_scan_file item_b; Call_schedule].

Definition during_pass : state :=
  default init (exec demo_env during_pass_acts init).




(** Two callers enqueue [item_x] and [item_b]; the pass visits [item_x]
    first and [set_fingerprint] raises. *)
Definition abort_acts : list action :=
  [Call_scan_file item_x; Call_scan_file item_b; Call_schedule; Call_schedule;
   Work; Work; Work].

Definition abort_end : state := default init (exec demo_env abort_acts init).

(** A file that is neither an entry nor a category, enqueued by the watcher. *)
Definition item_notes : QUEUE_ITEM := ("notes.txt", Some "notes.txt", false).

(** The worker is about to visit [item_notes]. *)
Definition before_notes : state :=
  default init
    (exec demo_env [Call_scan_file item_notes; Call_schedule; Work; Work] init).

(** The worker has visited [item_notes]. *)
Definition after_notes : state :=
  default init
    (exec demo_env [Call_scan_file item_notes; Call_schedule; Work; Work; Work]
          init).

(** The row that the first scan of site/blog.cat leaves behind. *)
Definition row_blog : FileFingerprint :=
  mkFileFingerprint "site/blog.cat" "f00d" 1%Q.

(** The same world with a schema in which [file_path] is not unique. *)
Definition demo_env_multi : environment := {|
  entry_scan_file := entry_scan_file demo_env;
  category_scan_file := category_scan_file demo_env;
  file_fingerprint := file_fingerprint demo_env;
  os_stat_mtime := fun _ _ => Ok 2%Q;
  os_path_isfile := os_path_isfile demo_env;
  iteration_rank := iteration_rank demo_env;
  unique_file_path := false;
  wait_time := wait_time demo_env
|}.


Definition prune_table : list FileFingerprint :=
  [mkFileFingerprint "kept.md" "a" 1%Q;
   mkFileFingerprint "back.md" "b" 1%Q;
   mkFileFingerprint "gone.md" "c" 1%Q].


(** ** The rest of index.py *)

(** [b] is not newer than [a]: the order of [orm.desc(file_mtime)]. *)
Definition not_older (a b : FileFingerprint) : Prop :=
  (file_mtime b <= file_mtime a)%Q.

#[global] Instance not_older_dec a b : Decision (not_older a b).
Proof.
  unfold not_older. destruct (Qlt_le_dec (file_mtime a) (file_mtime b)) as [H|H].
  - right. by apply Qlt_not_le.
  - by left.
Defined.

(** [last_modified()]: the first of the rows by decreasing [file_mtime], or
    three [None]. Rows of equal [file_mtime] come as the database leaves
    them; here in the order of the table. *)
Definition last_modified (table : list FileFingerprint)
  : option string * option pyfloat * option string :=
  match merge_sort not_older table with
  | file :: _ =>
      (Some (file_path file), Some (file_mtime file), Some (fingerprint file))
  | [] => (None, None, None)
  end.

(** [os.path.join(a, b)] of posixpath. *)
Definition path_join (a b : string) : string :=
  if String.prefix "/" b then b
  else if String.eqb a "" || String.eqb (slice_from a (Z.of_nat (String.length a) - 1)) "/"
       then (a ++ b)%string
       else (a ++ "/" ++ b)%string.

Section Scan_index.
Context (env : environment).
(** [os.path.relpath(fullpath, content_dir)] *)
Context (relpath : string -> string -> string).

(** The calls [indexer.scan_file(fullpath, relpath, False)] that
    [scan_directory(root, files)] makes, in order; [table] is the
    [FileFingerprint] table and the file at position [i] is looked at at time
    [now + i]. An exception leaves the loop for the handler around it. *)
Fixpoint scan_directory (content_dir : string) (now : nat) (root : string)
    (files : list string) (table : list FileFingerprint) : list QUEUE_ITEM :=
  match files with
  | [] => []
  | file :: files' =>
      let fullpath := path_join root file in
      let rel := relpath fullpath content_dir in
      if negb (is_scannable fullpath)
      then scan_directory content_dir (S now) root files' table
      else
        match file_fingerprint env now fullpath with
        | Raise _ => []
        | Ok fp =>
            match get_last_fingerprint fullpath table with
            | Raise _ => []
            | Ok last_fingerprint =>
                if bool_decide (Some fp ≠ last_fingerprint)
                then (fullpath, Some rel, false)
                     :: scan_directory content_dir (S now) root files' table
                else scan_directory content_dir (S now) root files' table
            end
        end
  end.

End Scan_index.

(** A world in which gone.md has been deleted. *)
Definition gone_env : environment := {|
  entry_scan_file := fun _ _ _ _ => Raise FileNotFoundError;
  category_scan_file := category_scan_file demo_env;
  file_fingerprint := fun _ path =>
    if String.eqb path "gone.md" then Raise FileNotFoundError else Ok "f00d";
  os_stat_mtime := fun _ _ => Ok 5%Q;
  os_path_isfile := fun _ path => negb (String.eqb path "gone.md");
  iteration_rank := iteration_rank demo_env;
  unique_file_path := true;
  wait_time := wait_time demo_env
|}.

(** [os.path.relpath] for a path below the directory. *)
Definition demo_relpath (fullpath content_dir : string) : string :=
  slice_from fullpath (Z.of_nat (String.length content_dir) + 1).

Definition demo_listing : list string := ["a.md"; "notes.txt"; "blog.cat"].

(** content/a.md is on record with its current fingerprint. *)
Definition demo_table : list FileFingerprint :=
  [mkFileFingerprint "content/a.md" "f00d" 1%Q].

(** ** More about the scheduler *)




(** The items callers asked for in a list of moves. *)
Definition requested (acts : list action) : list QUEUE_ITEM :=
  omap (fun a => match a with Call_scan_file item => Some item | _ => None end)
       acts.

(** The item [_scan_file] enqueues when the scan of [x] fails. *)
Definition fixup_twin (x : QUEUE_ITEM) : QUEUE_ITEM := (x.1.1, x.1.2, true).

(** Moves of the worker a pending item still stands for: its own visit, its
    share of the pass that visits it, and for an item without fixups the
    same again for the twin it may leave behind. *)
Definition pending_weight (x : QUEUE_ITEM) : nat := if x.2 then 8 else 16.

(** The same for an item already in the loop of a pass. *)
Definition todo_weight (x : QUEUE_ITEM) : nat := if x.2 then 2 else 10.

(** Moves a queued task stands for: a drain its swap, catch-up and return,
    a [_schedule] itself and the drain it may submit. *)
Definition task_moves (t : task) : nat :=
  match t with
  | TScanPending _ => 3
  | TSchedule => 4
  | _ => 1
  end.

Definition pass_moves (w : worker_pc) : nat :=
  match w with
  | Idle => 0
  | Draining _ items todo =>
      2 + (if bool_decide (items ≠ ∅) then 4 else 0)
      + sum_list_with todo_weight todo
  | Rescheduling _ items todo =>
      3 + (if bool_decide (items ≠ ∅) then 4 else 0)
      + sum_list_with todo_weight todo
  | Returning _ => 1
  end.

(** A bound on the moves the worker can still make when left alone. *)
Definition potential (s : state) : nat :=
  pass_moves (worker s)
  + sum_list_with task_moves (work_queue s)
  + sum_list_with pending_weight (elements (_pending s)).


(** [item_a] is enqueued once and the worker runs until it rests: the scan
    without fixups fails, the retry with fixups succeeds. *)
Definition fixup_acts : list action :=
  [Call_scan_file item_a; Call_schedule] ++ replicate 12 Work.

Definition after_fixup : state := default init (exec demo_env fixup_acts init).

(** ** The slug of an entry (publ/entry.py) *)

(** A Python [str], as its code points. *)
Definition pystr := list Z.

(** [c.isspace()]: the characters [str.strip()] takes away. *)
Definition isspace (c : Z) : bool :=
  ((9 <=? c) && (c <=? 13) || (28 <=? c) && (c <=? 32)
   || (c =? 133) || (c =? 160) || (c =? 5760)
   || (8192 <=? c) && (c <=? 8202)
   || (c =? 8232) || (c =? 8233) || (c =? 8239) || (c =? 8287)
   || (c =? 12288))%Z.

Fixpoint lstrip (s : pystr) : pystr :=
  match s with
  | c :: rest => if isspace c then lstrip rest else s
  | [] => []
  end.

(** [s.strip()] *)
Definition strip (s : pystr) : pystr := rev (lstrip (rev (lstrip s))).

(** The class [[a-zA-Z0-9]]. *)
Definition alnum (c : Z) : bool :=
  ((97 <=? c) && (c <=? 122) || (65 <=? c) && (c <=? 90)
   || (48 <=? c) && (c <=? 57))%Z.

Definition hyphen : Z := 45.

(** [re.sub(r"[^a-zA-Z0-9]+", r"-", s)]: every maximal run of characters
    outside the class becomes one hyphen. [inside] tells that the match
    under way has already been replaced. *)
Fixpoint sub_runs (inside : bool) (s : pystr) : pystr :=
  match s with
  | [] => []
  | c :: rest =>
      if alnum c then c :: sub_runs false rest
      else if inside then sub_runs true rest
      else hyphen :: sub_runs true rest
  end.

(** [make_slug(title)] *)
Definition make_slug (title : pystr) : pystr := sub_runs false (strip title).

(** Letters, digits and single hyphens; no hyphen first if [inside]. *)
Fixpoint slug_shaped (inside : bool) (s : pystr) : bool :=
  match s with
  | [] => true
  | c :: rest =>
      if alnum c then slug_shaped false rest
      else (c =? hyphen)%Z && negb inside && slug_shaped true rest
  end.


(** * Properties *)

Example splitext_md : splitext "posts/a.md" = ("posts/a", ".md").
Proof. reflexivity. Qed.

Example splitext_hidden : splitext "posts/.hidden" = ("posts/.hidden", "").
Proof. reflexivity. Qed.

Example splitext_dotted_dir : splitext "site.d/readme" = ("site.d/readme", "").
Proof. reflexivity. Qed.

Example splitext_double : splitext "a/..b.meta" = ("a/..b", ".meta").
Proof. reflexivity. Qed.

Section Invariant.
Context (env : environment).

Lemma queued_drains_app q1 q2 :
  queued_drains (q1 ++ q2) = queued_drains q1 ++ queued_drains q2.
Proof. apply omap_app. Qed.

Lemma handle_free_flight s : handle_free s = true <-> handle_flight s = [].
Proof.
  unfold handle_free, handle_flight.
  destruct (_running s) as [h|]; [|done].
  destruct (bool_decide (h ∈ finished s)); split; done.
Qed.

Lemma invariant_init : invariant init.
Proof. split; [done| done |]. intros h Hh. cbn in Hh. set_solver. Qed.

Lemma invariant_schedule wait s : invariant s -> invariant (_schedule wait s).
Proof.
  intros [Hf Hr Hd]. unfold _schedule.
  destruct (handle_free s) eqn:Hfree; [|by split].
  apply handle_free_flight in Hfree. rewrite Hfree in Hf.
  assert (Hq : queued_drains (work_queue s) = [] /\ running_drain (worker s) = []).
  { unfold in_flight in Hf. apply app_eq_nil in Hf. tauto. }
  destruct Hq as [Hq Hw].
  assert (Hnew : next_handle s ∉ finished s).
  { intros Hin. apply Hd in Hin. lia. }
  split.
  - unfold in_flight, handle_flight.
    destruct (float_truthy wait); cbn;
      rewrite !omap_app; fold (queued_drains (work_queue s));
      rewrite Hq, Hw; cbn;
      by rewrite bool_decide_eq_false_2.
  - intros h. destruct (float_truthy wait); cbn; intros [= <-]; lia.
  - intros h. destruct (float_truthy wait); cbn; intros Hin%Hd; lia.
Qed.

(** A busy worker holds the handle, so its own [_schedule] does nothing. *)
Lemma schedule_busy wait s :
  invariant s -> worker s ≠ Idle -> _schedule wait s = s.
Proof.
  intros [Hf _ _] Hw. unfold _schedule.
  destruct (handle_free s) eqn:Hfree; [|done].
  apply handle_free_flight in Hfree. rewrite Hfree in Hf.
  unfold in_flight in Hf. apply app_eq_nil in Hf as [Hf _].
  destruct (worker s); done.
Qed.

Lemma invariant_work s s' : invariant s -> work env s = Some s' -> invariant s'.
Proof.
  intros Hinv Hwork. unfold work in Hwork.
  destruct (worker s) as [|h items [|item todo]|h items todo|h] eqn:Hw.
  - destruct (work_queue s) as [|t queue] eqn:Hq; [done|].
    injection Hwork as <-.
    assert (Hpop : invariant (set_worker (worker s) (set_work_queue queue s))
                   \/ exists h, t = TScanPending h).
    { destruct t; eauto; left; destruct Hinv as [Hf Hr Hd];
        (split; [|done|done]);
        unfold in_flight, handle_flight in *; rewrite Hq in Hf; cbn in *; done. }
    destruct t.
    + destruct Hpop as [H|[? [=]]]. destruct H as [Hf Hr Hd].
      split; [|done|done]. unfold in_flight in *. cbn in *. by rewrite Hw in *.
    + destruct Hinv as [Hf Hr Hd]. split; [|done|done].
      unfold in_flight, handle_flight in *. rewrite Hq, Hw in Hf. cbn in *. done.
    + destruct Hpop as [H|[? [=]]].
      apply (invariant_schedule 0%Q) in H. revert H.
      unfold _schedule, handle_free. cbn.
      destruct (_running s) as [h|]; cbn;
        [destruct (bool_decide (h ∈ finished s))|];
        cbn; intros [Hf Hr Hd]; (split; [|done|done]);
        unfold in_flight, handle_flight in *; cbn in *; by rewrite Hw in *.
    + destruct Hpop as [H|[? [=]]]. destruct H as [Hf Hr Hd].
      split; [|done|done]. unfold in_flight in *. cbn in *. by rewrite Hw in *.
    + destruct Hpop as [H|[? [=]]]. destruct H as [Hf Hr Hd].
      split; [|done|done]. unfold in_flight in *. cbn in *. by rewrite Hw in *.
    + destruct Hpop as [H|[? [=]]]. destruct H as [Hf Hr Hd].
      split; [|done|done]. unfold in_flight in *. cbn in *. by rewrite Hw in *.
  - injection Hwork as <-. destruct Hinv as [Hf Hr Hd].
    unfold _scan_pending_catchup.
    destruct (bool_decide (items ≠ ∅)); (split; [|done|done]);
      unfold in_flight, handle_flight in *; rewrite Hw in Hf; cbn in *;
      rewrite ?omap_app; cbn; rewrite ?app_nil_r; done.
  - injection Hwork as <-. destruct Hinv as [Hf Hr Hd].
    unfold _scan_file. destruct item as [[fullpath relpath] fixups].
    destruct (is_False _ && negb fixups).
    + split; [|done|done].
      unfold in_flight, handle_flight in *; rewrite Hw in Hf; cbn in *; done.
    + destruct (set_fingerprint _ _ _ _ _) as [[?|e] table];
        (split; [|done|done]);
        unfold in_flight, handle_flight in *; rewrite Hw in Hf; cbn in *; done.
  - injection Hwork as <-.
    rewrite schedule_busy by (done || by rewrite Hw).
    destruct Hinv as [Hf Hr Hd]. split; [|done|done].
    unfold in_flight, handle_flight in *; rewrite Hw in Hf; cbn in *; done.
  - injection Hwork as <-. destruct Hinv as [Hf Hr Hd].
    unfold in_flight, handle_flight in Hf. rewrite Hw in Hf. cbn in Hf.
    destruct (_running s) as [h'|] eqn:Hrun; [|done].
    destruct (bool_decide (h' ∈ finished s)) eqn:Hfin; [done|].
    injection Hf as -> Hq.
    split.
    + unfold in_flight, handle_flight, queued_drains in *. cbn. rewrite Hrun, Hq.
      rewrite bool_decide_eq_true_2; [done|set_solver].
    + cbn. rewrite Hrun. exact Hr.
    + cbn. intros h [->%elem_of_singleton|Hin]%elem_of_union; eauto.
Qed.

Lemma invariant_tick s : invariant s -> invariant (tick s).
Proof. by intros [Hf Hr Hd]. Qed.

Lemma invariant_step a s s' : invariant s -> step env a s = Some s' -> invariant s'.
Proof.
  intros Hinv Hstep. destruct a as [item| |t|]; cbn in Hstep.
  - injection Hstep as <-. by destruct Hinv.
  - destruct (callers s) as [|n] eqn:Hc; [done|]. injection Hstep as <-.
    apply (invariant_schedule (wait_time env)) in Hinv. by destruct Hinv.
  - destruct (background t) eqn:Hb; [|done]. injection Hstep as <-.
    destruct Hinv as [Hf Hr Hd]. split; [|done|done].
    unfold in_flight, handle_flight in *. cbn.
    rewrite omap_app. destruct t; try done; cbn; by rewrite app_nil_r.
  - destruct (work env s) as [s1|] eqn:Hwork; [|done]. injection Hstep as <-.
    apply invariant_tick. by apply invariant_work with s.
Qed.

Lemma reachable_invariant s : reachable env s -> invariant s.
Proof.
  induction 1 as [|a s s' _ IH Hstep]; [apply invariant_init|].
  by apply invariant_step with a s.
Qed.

End Invariant.

Section Order.
Context (env : environment).

Lemma iteration_order_perm now items :
  iteration_order env now items ≡ₚ elements items.
Proof. apply merge_sort_Permutation. Qed.

Lemma elem_of_iteration_order now items x :
  x ∈ iteration_order env now items <-> x ∈ items.
Proof. rewrite iteration_order_perm. apply elem_of_elements. Qed.

Lemma NoDup_iteration_order now items : NoDup (iteration_order env now items).
Proof. rewrite iteration_order_perm. apply NoDup_elements. Qed.




Lemma filter_eq_absent (x : QUEUE_ITEM) l :
  x ∉ l -> filter (fun y => y = x) l = [].
Proof.
  induction l as [|y l IH]; [done|]. intros Hx.
  rewrite filter_cons. destruct (decide (y = x)) as [->|Hne].
  - exfalso. apply Hx. apply elem_of_cons. by left.
  - apply IH. intros Hin. apply Hx. apply elem_of_cons. by right.
Qed.

(** An item of a snapshot is visited once. *)
Lemma iteration_order_once now items x :
  x ∈ items ->
  List.length (filter (fun y => y = x) (iteration_order env now items)) = 1.
Proof.
  intros Hx. apply elem_of_iteration_order with (now := now) in Hx.
  pose proof (NoDup_iteration_order now items) as Hnd.
  induction Hnd as [|y l Hy Hnd IH]; [by apply elem_of_nil in Hx|].
  rewrite filter_cons. destruct (decide (y = x)) as [->|Hne].
  - cbn. by rewrite filter_eq_absent.
  - apply IH. apply elem_of_cons in Hx as [->|Hx]; done.
Qed.

End Order.

Section Reachability.
Context (env : environment).

Lemma exec_reachable acts s s' :
  reachable env s -> exec env acts s = Some s' -> reachable env s'.
Proof.
  revert s. induction acts as [|a acts IH]; intros s Hs Hexec; cbn in Hexec.
  - by injection Hexec as <-.
  - destruct (step env a s) as [s1|] eqn:Hstep; [|done].
    apply (IH s1); [|done]. by apply reachable_step with a s.
Qed.

Lemma exec_invariant acts s : exec env acts init = Some s -> invariant s.
Proof.
  intros Hexec. apply (reachable_invariant env).
  apply (exec_reachable acts init); [constructor|done].
Qed.

Lemma length_handle_flight s : List.length (handle_flight s) <= 1.
Proof.
  unfold handle_flight. destruct (_running s) as [h|]; cbn; [|lia].
  destruct (bool_decide _); cbn; lia.
Qed.

End Reachability.

(** C2. In every state the scheduler can reach, at most one [_scan_pending]
    task is submitted and unfinished, and none is queued while the worker
    executes one; a step that puts a new one in flight starts from a state
    in which the recorded handle is absent or done. *)
Theorem single_drain_in_flight env acts s :
  exec env acts init = Some s ->
  List.length (in_flight s) <= 1
  /\ (worker s ≠ Idle -> queued_drains (work_queue s) = [])
  /\ (forall a s', step env a s = Some s' ->
        List.length (in_flight s) < List.length (in_flight s') ->
        handle_free s = true).
Proof.
  intros Hexec. pose proof (exec_invariant env acts s Hexec) as Hinv.
  pose proof (inv_flight s Hinv) as Hf.
  pose proof (length_handle_flight s) as Hlen. rewrite <- Hf in Hlen.
  split; [done|]. split.
  - intros Hw. unfold in_flight in Hlen. rewrite length_app in Hlen.
    destruct (worker s); [done|..]; cbn in Hlen;
      apply length_zero_iff_nil; lia.
  - intros a s' Hstep Hgrow.
    apply handle_free_flight. rewrite <- Hf.
    pose proof (invariant_step env a s s' Hinv Hstep) as Hinv'.
    pose proof (length_handle_flight s') as Hlen'.
    rewrite <- (inv_flight s' Hinv') in Hlen'.
    apply length_zero_iff_nil. lia.
Qed.

(** ** What one move of the worker does to the history and the work left *)

(** Case analysis on the move the worker makes from [s]. *)
Ltac worker_move Hwork :=
  let Hw := fresh "Hw" in
  let Hq := fresh "Hq" in
  unfold work in Hwork;
  destruct (worker _) as [|? ? [|[[? ?] ?] ?]|? ? ?|?] eqn:Hw;
  [ destruct (work_queue _) as [|[] ?] eqn:Hq; [done|..] |..];
  injection Hwork as <-.

Section Moves.
Context (env : environment).

Lemma scans_record_events evs s :
  scans (record_events evs s)
  = scans s ++ omap (fun e => match e with
                              | Scanned item r => Some (item, r)
                              | _ => None
                              end) evs.
Proof. unfold scans. cbn. apply omap_app. Qed.


Lemma schedule_frame wait s :
  _pending (_schedule wait s) = _pending s
  /\ worker (_schedule wait s) = worker s
  /\ history (_schedule wait s) = history s
  /\ fingerprints (_schedule wait s) = fingerprints s
  /\ clock (_schedule wait s) = clock s.
Proof.
  unfold _schedule. destruct (handle_free s); [|done].
  by destruct (float_truthy wait).
Qed.

(** Without its [Scanned] events the history tells nothing new about scans. *)
Lemma work_scans s s' :
  work env s = Some s' ->
  match worker s with
  | Draining _ _ (item :: _) =>
      scans s' = scans s ++ [(item, do_scan env (clock s) item)]
  | _ => scans s' = scans s
  end.
Proof.
  intros Hwork. worker_move Hwork; rewrite ?Hq; try done.
  - unfold _scan_pending_swap. rewrite scans_record_events. cbn.
    by rewrite app_nil_r.
  - unfold scans. by destruct (schedule_frame 0%Q (set_work_queue l s))
      as (_ & _ & -> & _).
  - unfold _scan_pending_catchup. by destruct (bool_decide _).
  - unfold _scan_file.
    destruct (is_False _ && negb _); [by rewrite scans_record_events|].
    destruct (set_fingerprint _ _ _ _ _) as [[[]|e] table];
      by rewrite scans_record_events.
  - unfold scans. cbn.
    by destruct (schedule_frame (wait_time env) s) as (_ & _ & -> & _).
Qed.

(** The only item a move of the worker can add is the fixup twin of the
    item it visits. *)
Lemma work_outstanding s s' x :
  work env s = Some s' ->
  outstanding s' x ->
  outstanding s x
  \/ exists h items fullpath relpath todo,
       worker s = Draining h items ((fullpath, relpath, false) :: todo)
       /\ x = (fullpath, relpath, true).
Proof.
  unfold outstanding. intros Hwork Hx.
  worker_move Hwork; try (left; cbn in Hx; rewrite ?Hw in Hx; exact Hx).
  - cbn in Hx. destruct Hx as [Hx|Hx]; [set_solver|].
    apply elem_of_iteration_order in Hx. cbn in Hx. left. left. exact Hx.
  - destruct (schedule_frame 0%Q (set_work_queue l s)) as (Hp & Hwk & _).
    rewrite Hp, Hwk in Hx. cbn in Hx. rewrite Hw in Hx. by left.
  - unfold _scan_pending_catchup in Hx.
    destruct (bool_decide _); cbn in Hx; left; set_solver.
  - unfold _scan_file in Hx.
    destruct (is_False _ && negb b) eqn:Hfix.
    + apply andb_true_iff in Hfix as [_ Hb]. destruct b; [done|].
      cbn in Hx. destruct Hx as [[Hx|Hx]%elem_of_union|Hx].
      * apply elem_of_singleton in Hx. right. by eexists _, _, _, _, _.
      * left; left; done.
      * left; right. apply elem_of_cons; right; done.
    + destruct (set_fingerprint _ _ _ _ _) as [[[]|e] table]; cbn in Hx.
      * destruct Hx as [Hx|Hx]; [(left; left; done)|].
        left; right. apply elem_of_cons; right; done.
      * destruct Hx as [Hx|Hx]; [(left; left; done)|]. by apply elem_of_nil in Hx.
  - cbn in Hx.
    destruct (schedule_frame (wait_time env) s) as (Hp & _).
    rewrite Hp in Hx. by left.
Qed.

End Moves.

(** ** Runs of the worker *)

Section Runs.
Context (env : environment).





(** A caller that is not overtaken between its two locked sections does
    [scan_file] in two moves. *)
Lemma scan_file_moves item s :
  exec env [Call_scan_file item; Call_schedule] s
  = Some (tick (tick (set_callers (callers s) (scan_file env item s)))).
Proof.
  cbn. f_equal. unfold scan_file, _schedule, handle_free. cbn.
  destruct (_running s) as [h|]; [destruct (bool_decide (h ∈ finished s))|];
    try done; by destruct (float_truthy (wait_time env)).
Qed.



End Runs.

(** ** A burst of identical enqueues *)

Section Burst.
Context (env : environment) (item : QUEUE_ITEM).







End Burst.



Lemma single_drain_in_flight_witness :
  List.length (in_flight after_burst_a) <= 1
  /\ (worker after_burst_a ≠ Idle -> queued_drains (work_queue after_burst_a) = [])
  /\ (forall a s', step demo_env a after_burst_a = Some s' ->
        List.length (in_flight after_burst_a) < List.length (in_flight s') ->
        handle_free after_burst_a = true).
Proof.
  apply (single_drain_in_flight demo_env burst_a after_burst_a).
  vm_compute. reflexivity.
Defined.

Section Fixup.
Context (env : environment).








End Fixup.



(** ** Progress of a tracked item *)

Section Liveness.
Context (env : environment).


Lemma has_schedule_task_app q1 q2 :
  has_schedule_task (q1 ++ q2) = has_schedule_task q1 || has_schedule_task q2.
Proof. apply existsb_app. Qed.


Lemma not_todo_nil (x : QUEUE_ITEM) : in_loop x [] = false.
Proof. apply bool_decide_eq_false_2, not_elem_of_nil. Qed.

Lemma in_loop_head x todo : in_loop x (x :: todo) = true.
Proof. apply bool_decide_eq_true_2, elem_of_cons. by left. Qed.

Lemma in_loop_tail x y todo : x ≠ y -> in_loop x (y :: todo) = in_loop x todo.
Proof.
  intros Hne. apply bool_decide_ext. rewrite elem_of_cons.
  split; [by intros [?|?]|by right].
Qed.


Lemma in_loop_false x todo : in_loop x todo = false <-> x ∉ todo.
Proof. apply bool_decide_eq_false. Qed.









(** After [_schedule] a drain is armed unless the worker is inside a pass. *)
Lemma schedule_arms wait s :
  invariant s -> worker s = Idle -> armed (_schedule wait s) = true.
Proof.
  intros [Hflight _ _] Hw. unfold armed, _schedule.
  unfold in_flight in Hflight. rewrite Hw in Hflight. cbn in Hflight.
  destruct (handle_free s) eqn:Hfree.
  - rewrite bool_decide_eq_true_2; [done|].
    destruct (float_truthy wait); cbn; rewrite ?queued_drains_app; cbn;
      intros Heq; by apply app_eq_nil in Heq as [_ ?].
  - rewrite bool_decide_eq_true_2; [done|]. rewrite Hflight.
    intros Heq. apply handle_free_flight in Heq. congruence.
Qed.

(** Appending tasks to the queue keeps a drain armed. *)
Lemma armed_submit s tasks :
  armed s = true -> armed (set_work_queue (work_queue s ++ tasks) s) = true.
Proof.
  unfold armed. cbn. rewrite queued_drains_app, has_schedule_task_app.
  intros [[Hd|Hs]%orb_true_iff|Hw]%orb_true_iff.
  - rewrite bool_decide_eq_true_2; [done|].
    apply bool_decide_eq_true in Hd. intros Heq.
    by apply app_eq_nil in Heq as [? _].
  - rewrite Hs. cbn. by rewrite orb_true_r.
  - rewrite Hw. by rewrite orb_true_r.
Qed.

Lemma armed_schedule wait s : armed s = true -> armed (_schedule wait s) = true.
Proof.
  intros Ha. unfold _schedule. destruct (handle_free s); [|done].
  destruct (float_truthy wait).
  - apply (armed_submit _ [TSleep wait]) in Ha.
    apply (armed_submit _ [TScanPending (next_handle s)]) in Ha. exact Ha.
  - apply (armed_submit _ [TScanPending (next_handle s)]) in Ha. exact Ha.
Qed.





End Liveness.

(** Deciding a closed proposition by evaluation. *)
Ltac by_evaluation :=
  match goal with
  | |- ?P => apply (bool_decide_unpack P); vm_compute; exact I
  end.




(** ** The fingerprint table *)

Section Store.
Context (env : environment).

(** With a changed fingerprint the row of the path is updated in place. *)
Lemma set_fingerprint_changed now path fp mtime table r :
  file_fingerprint env now path = Ok fp ->
  os_stat_mtime env now path = Ok mtime ->
  select_path file_path path table = [r] ->
  fingerprint r ≠ fp ->
  set_fingerprint env now path None table
  = (Ok tt, record_set path fp mtime table).
Proof.
  intros Hfp Hst Hsel Hne.
  unfold set_fingerprint, set_fingerprint_try, table_get, select_path in *.
  cbn in *. rewrite Hfp. cbn. rewrite Hsel. cbn.
  destruct (String.eqb_spec (fingerprint r) fp) as [Heq|_]; [done|].
  cbn. by rewrite Hst.
Qed.

(** Without a row the path gets one. *)
Lemma set_fingerprint_new now path fp mtime table :
  file_fingerprint env now path = Ok fp ->
  os_stat_mtime env now path = Ok mtime ->
  select_path file_path path table = [] ->
  set_fingerprint env now path None table
  = (Ok tt, table ++ [mkFileFingerprint path fp mtime]).
Proof.
  intros Hfp Hst Hsel.
  unfold set_fingerprint, set_fingerprint_try, table_get, record_create,
    select_path in *.
  cbn in *. rewrite Hfp. cbn. rewrite Hsel. cbn. rewrite Hst. cbn.
  by rewrite andb_false_r.
Qed.

End Store.

(** C5, where the code departs from it. When the path has a row and the
    fingerprint of the file equals the stored one, [set_fingerprint] takes
    the branch that constructs a new [FileFingerprint] for the path: with
    [file_path] a unique key the construction is refused and the exception
    leaves [set_fingerprint]; otherwise a second row is written. In neither
    case does the call return with the table as it was. *)
Theorem set_fingerprint_unchanged env now path fp mtime table r :
  file_fingerprint env now path = Ok fp ->
  os_stat_mtime env now path = Ok mtime ->
  select_path file_path path table = [r] ->
  fingerprint r = fp ->
  set_fingerprint env now path None table
  = if unique_file_path env
    then (Raise CacheIndexError, table)
    else (Ok tt, table ++ [mkFileFingerprint path fp mtime]).
Proof.
  intros Hfp Hst Hsel Heq.
  unfold set_fingerprint, set_fingerprint_try, table_get, record_create,
    select_path in *.
  cbn in *. rewrite Hfp. cbn. rewrite Hsel. cbn.
  rewrite (proj2 (String.eqb_eq _ _) Heq). cbn. rewrite Hst. cbn.
  by destruct (unique_file_path env).
Qed.

Lemma set_fingerprint_unchanged_witness :
  set_fingerprint demo_env 9 "site/blog.cat" None [row_blog]
  = (Raise CacheIndexError, [row_blog])
  /\ set_fingerprint demo_env_multi 9 "site/blog.cat" None [row_blog]
     = (Ok tt, [row_blog; mkFileFingerprint "site/blog.cat" "f00d" 2%Q]).
Proof.
  split.
  - apply (set_fingerprint_unchanged demo_env 9 "site/blog.cat" "f00d" 1%Q
             [row_blog] row_blog); reflexivity.
  - apply (set_fingerprint_unchanged demo_env_multi 9 "site/blog.cat" "f00d" 2%Q
             [row_blog] row_blog); reflexivity.
Defined.

(** C6 fails as stated: the scan of notes.txt returns [None], and the
    fingerprint table, empty before, has a row for it afterwards. *)
Lemma not_applicable_fingerprinted :
  fingerprints init = []
  /\ scans after_notes = [(item_notes, PyNone)]
  /\ fingerprints after_notes = [mkFileFingerprint "notes.txt" "f00d" 1%Q].
Proof. vm_compute. done. Qed.

(** C6, as the code has it. When [do_scan] returns [None] for the item the
    loop visits, nothing is enqueued or submitted, and the fingerprint table
    becomes what [set_fingerprint] makes of it for the path of the item, just
    as after a successful scan. *)
Theorem not_applicable_sets_fingerprint env s h items p r fx todo :
  worker s = Draining h items ((p, r, fx) :: todo) ->
  do_scan env (clock s) (p, r, fx) = PyNone ->
  exists s', work env s = Some s'
    /\ fingerprints s'
       = (set_fingerprint env (clock s) p None (fingerprints s)).2
    /\ _pending s' = _pending s
    /\ work_queue s' = work_queue s.
Proof.
  intros Hw Hnone. eexists. split.
  - unfold work. rewrite Hw. reflexivity.
  - unfold _scan_file. rewrite Hnone. cbn.
    by destruct (set_fingerprint _ _ _ _ _) as [[[]|e] table].
Qed.

Lemma not_applicable_sets_fingerprint_witness :
  exists s', work demo_env before_notes = Some s'
    /\ fingerprints s'
       = (set_fingerprint demo_env (clock before_notes) "notes.txt" None
            (fingerprints before_notes)).2
    /\ _pending s' = _pending before_notes
    /\ work_queue s' = work_queue before_notes.
Proof.
  apply (not_applicable_sets_fingerprint demo_env before_notes 0 {[item_notes]}
           "notes.txt" (Some "notes.txt") false []).
  - vm_compute. reflexivity.
  - vm_compute. reflexivity.
Defined.

(** ** The dispatcher *)

(** C9 fails as stated: the category scanner is called with two arguments,
    so an item and its fixup twin lead to the same call. *)
Lemma category_scan_without_fixups :
  route ("site/blog.cat", Some "blog.cat", true)
  = Some (CategoryScan "site/blog.cat" (Some "blog.cat"))
  /\ route ("site/blog.cat", Some "blog.cat", false)
     = Some (CategoryScan "site/blog.cat" (Some "blog.cat"))
  /\ call_args (CategoryScan "site/blog.cat" (Some "blog.cat"))
     = [AStr "site/blog.cat"; AOptStr (Some "blog.cat")].
Proof. vm_compute. done. Qed.

(** C9, as the code has it. An item routed to a scanner goes to the entry
    scanner, with its full path, its relative path and its fixups flag, when
    its extension is an entry type; otherwise to the category scanner, with
    its full path and its relative path only. *)
Theorem scanner_arguments fullpath relpath fixups c :
  route (fullpath, relpath, fixups) = Some c ->
  if ext_in (splitext fullpath).2 ENTRY_TYPES
  then c = EntryScan fullpath relpath fixups
       /\ call_args c = [AStr fullpath; AOptStr relpath; ABool fixups]
  else ext_in (splitext fullpath).2 CATEGORY_TYPES = true
       /\ c = CategoryScan fullpath relpath
       /\ call_args c = [AStr fullpath; AOptStr relpath].
Proof.
  unfold route.
  destruct (ext_in _ ENTRY_TYPES); [by intros [= <-]|].
  destruct (ext_in _ CATEGORY_TYPES); [by intros [= <-]|done].
Qed.

Lemma scanner_arguments_witness :
  EntryScan "posts/a.md" (Some "a.md") false
  = EntryScan "posts/a.md" (Some "a.md") false
  /\ call_args (EntryScan "posts/a.md" (Some "a.md") false)
     = [AStr "posts/a.md"; AOptStr (Some "a.md"); ABool false].
Proof.
  apply (scanner_arguments "posts/a.md" (Some "a.md") false
           (EntryScan "posts/a.md" (Some "a.md") false)).
  vm_compute. reflexivity.
Defined.

(** ** Introspection *)

(** C10. [in_progress] is true in every state, whether or not the executor
    exposes its queue, also when [queue_length] itself returns 0 or [None]. *)
Theorem in_progress_always exposed s :
  in_progress exposed s = true
  /\ (work_queue s = [] -> truth (queue_length exposed s) = false).
Proof.
  split; [done|]. intros Hq. unfold queue_length, _work_queue.
  destruct exposed; cbn; [|done]. by rewrite Hq.
Qed.

Lemma in_progress_always_witness :
  in_progress true init = true /\ in_progress false init = true
  /\ truth (queue_length true init) = false
  /\ truth (queue_length false init) = false.
Proof.
  pose proof (in_progress_always true init) as [H1 H2].
  pose proof (in_progress_always false init) as [H3 H4].
  split; [exact H1|]. split; [exact H3|]. split; [by apply H2|by apply H4].
Defined.

(** ** Pruning *)

Section Pruning.
Context {row : Type} (path_of : row -> string) (env : environment).

Lemma select_path_absent p (table : list row) :
  p ∉ path_of <$> table -> select_path path_of p table = [].
Proof.
  induction table as [|a table IH]; [done|]. intros Hp.
  unfold select_path in *. rewrite filter_cons.
  destruct (decide (path_of a = p)) as [Heq|Hne].
  - exfalso. apply Hp. rewrite fmap_cons, <- Heq. apply elem_of_cons. by left.
  - apply IH. intros Hin. apply Hp. rewrite fmap_cons. apply elem_of_cons. by right.
Qed.

(** With distinct paths [get] never finds two rows. *)
Lemma select_path_unique p (table : list row) :
  NoDup (path_of <$> table) ->
  select_path path_of p table = []
  \/ exists r, select_path path_of p table = [r] /\ path_of r = p.
Proof.
  induction table as [|a table IH]; [by left|]. rewrite fmap_cons.
  intros [Ha Hnd]%NoDup_cons. unfold select_path in *. rewrite filter_cons.
  destruct (decide (path_of a = p)) as [Heq|Hne].
  - right. exists a. split; [|done]. f_equal.
    apply (select_path_absent p table). by rewrite <- Heq.
  - by apply IH.
Qed.

Lemma NoDup_paths_filter (P : row -> Prop) `{!forall r, Decision (P r)} table :
  NoDup (path_of <$> table) -> NoDup (path_of <$> filter P table).
Proof.
  induction table as [|a table IH]; [done|]. rewrite fmap_cons.
  intros [Ha Hnd]%NoDup_cons. rewrite filter_cons.
  destruct (decide (P a)); [|by apply IH].
  rewrite fmap_cons. apply NoDup_cons. split; [|by apply IH].
  intros (r & Hr & [_ Hin]%list_elem_of_filter)%list_elem_of_fmap.
  apply Ha. rewrite Hr. by apply list_elem_of_fmap_2.
Qed.







End Pruning.



(** ** Exceptions *)

Section Passes.
Context (env : environment).

(** A pass, once started, returns and its Future completes, whatever is
    raised on the way. *)
Lemma pass_completes : forall n s h,
  running_drain (worker s) = [h] -> pass_cost (worker s) <= n ->
  exists k, k <= n /\ worker (run env k s) = Idle /\ h ∈ finished (run env k s).
Proof.
  induction n as [|n IH]; intros s h Hh Hcost.
  - destruct (worker s); cbn in *; try done; lia.
  - destruct s as [P R F N Q W C FP CL H]; cbn in *.
    destruct W as [|h' items [|[[p r] fx] todo]|h' items todo|h'];
      cbn in *; try done; injection Hh as ->.
    + edestruct (IH (tick (_scan_pending_catchup h items
                  (mkState P R F N Q (Draining h items []) C FP CL H))) h)
        as (k & Hk & Hidle & Hfin); [done|cbn; lia|].
      exists (S k). split; [lia|]. done.
    + edestruct (IH (tick (_scan_file env h items (p, r, fx) todo
                  (mkState P R F N Q (Draining h items ((p, r, fx) :: todo))
                           C FP CL H))) h)
        as (k & Hk & Hidle & Hfin).
      * unfold _scan_file. destruct (is_False _ && negb fx); [done|].
        by destruct (set_fingerprint _ _ _ _ _) as [[[]|e] table].
      * unfold _scan_file. destruct (is_False _ && negb fx); [cbn; lia|].
        destruct (set_fingerprint _ _ _ _ _) as [[[]|e] table]; cbn; lia.
      * exists (S k). split; [lia|]. done.
    + edestruct (IH (tick (set_worker (Draining h items todo)
                  (_schedule (wait_time env)
                     (mkState P R F N Q (Rescheduling h items todo) C FP CL H))))
                  h) as (k & Hk & Hidle & Hfin); [done|cbn; lia|].
      exists (S k). split; [lia|]. done.
    + exists 1. split; [lia|]. cbn. split; [done|].
      apply elem_of_union. left. by apply elem_of_singleton.
Qed.

End Passes.

(** C8 fails as stated: [set_fingerprint] raises for x.txt, the first item
    of a snapshot of two, and the pass ends there; posts/b.md, the second
    item, is never scanned and is no longer pending. *)
Lemma fingerprint_error_drops_batch :
  exec demo_env abort_acts init = Some abort_end
  /\ history abort_end
     = [Swapped 0 [item_x; item_b]; Scanned item_x PyNone;
        Failed 0 (OtherError "PermissionError")]
  /\ worker abort_end = Returning 0
  /\ (item_b ∉ _pending abort_end)
  /\ work_queue abort_end = [].
Proof.
  split; [vm_compute; reflexivity|]. split; [vm_compute; reflexivity|].
  split; [vm_compute; reflexivity|]. split; [by_evaluation|].
  vm_compute. reflexivity.
Qed.

(** C8, as the code has it. (1) An exception of the scanner an item is
    routed to is caught in [do_scan] and is that item's [False] outcome.
    (2) The loop of a pass goes on to the rest of the snapshot after an
    item unless [set_fingerprint] raised for it; then the pass ends in the
    handler of [_scan_pending]. (3) In every case the pass returns and its
    Future completes, so the worker is free for the next task. *)
Theorem exceptions_contained env :
  (forall now item c e,
     route item = Some c -> invoke env now c = Raise e ->
     do_scan env now item = PyFalse)
  /\ (forall s h items item todo,
        worker s = Draining h items (item :: todo) ->
        exists s', work env s = Some s'
          /\ failures s' <= S (failures s)
          /\ (worker s' = Draining h items todo
              \/ worker s' = Rescheduling h items todo
              \/ (worker s' = Returning h
                  /\ exists e, (set_fingerprint env (clock s) item.1.1 None
                                  (fingerprints s)).1 = Raise e)))
  /\ (forall s h,
        running_drain (worker s) = [h] ->
        exists k, k <= pass_cost (worker s)
          /\ worker (run env k s) = Idle /\ h ∈ finished (run env k s)).
Proof.
  split; [|split].
  - intros now item c e Hroute Hraise. unfold do_scan. by rewrite Hroute, Hraise.
  - intros s h items [[p r] fx] todo Hw. eexists. split.
    + unfold work. rewrite Hw. reflexivity.
    + unfold _scan_file. destruct (is_False _ && negb fx).
      * split; [|by right; left]. unfold failures; cbn; rewrite ?omap_app, ?length_app; cbn; lia.
      * cbn. destruct (set_fingerprint _ _ _ _ _) as [[[]|e] table].
        -- split; [|by left]. unfold failures; cbn; rewrite ?omap_app, ?length_app; cbn; lia.
        -- split; [|right; right; split; [done|by exists e]].
           unfold failures; cbn; rewrite ?omap_app, ?length_app; cbn; lia.
  - intros s h Hh. by apply pass_completes.
Qed.

(** The same unchanged file handled twice in sequence: the second pass ends
    in the handler when [file_path] is a unique key, and leaves two rows
    when it is not. *)
Example unchanged_file_twice :
  let twice := [Call_scan_file item_c; Call_schedule;
                Work; Work; Work; Work; Work; Work; Work; Work; Work;
                Call_scan_file item_c; Call_schedule; Work; Work; Work] in
  (history <$> exec demo_env twice init)
  = Some [Swapped 0 [item_c]; Scanned item_c (PyRecord 2); Swapped 1 [];
          Swapped 2 [item_c]; Scanned item_c (PyRecord 2);
          Failed 2 CacheIndexError]
  /\ (fingerprints <$> exec demo_env_multi twice init)
     = Some [mkFileFingerprint "site/blog.cat" "f00d" 2%Q;
             mkFileFingerprint "site/blog.cat" "f00d" 2%Q].
Proof. vm_compute. done. Qed.

(** * Further properties of index.py *)

(** ** The fingerprint table: lookups after updates *)

Section Lookups.
Context (env : environment).

Lemma table_get_NoDup (table : list FileFingerprint) path :
  NoDup (file_path <$> table) ->
  (select_path file_path path table = []
   /\ table_get file_path path table = Ok None)
  \/ exists r, select_path file_path path table = [r] /\ file_path r = path
               /\ table_get file_path path table = Ok (Some r).
Proof.
  intros Hnd. unfold table_get.
  destruct (select_path_unique file_path path table Hnd) as [Hsel|(r & Hsel & Hr)];
    rewrite Hsel; [by left|right]. by exists r.
Qed.

Lemma record_set_paths path fp mtime table :
  file_path <$> record_set path fp mtime table = file_path <$> table.
Proof.
  unfold record_set. induction table as [|a table IH]; [done|].
  cbn. rewrite <- IH. f_equal. by destruct (bool_decide _).
Qed.

Lemma select_record_set_eq path fp mtime table :
  select_path file_path path (record_set path fp mtime table)
  = (fun r => mkFileFingerprint (file_path r) fp mtime)
      <$> select_path file_path path table.
Proof.
  unfold select_path, record_set. induction table as [|a table IH]; [done|].
  cbn [map]. rewrite !filter_cons.
  destruct (decide (file_path a = path)) as [Ha|Ha].
  - rewrite bool_decide_eq_true_2 by done. cbn.
    rewrite decide_True by done. cbn. by rewrite <- IH.
  - rewrite bool_decide_eq_false_2 by done. by rewrite decide_False.
Qed.

Lemma select_record_set_ne path q fp mtime table :
  q ≠ path ->
  select_path file_path q (record_set path fp mtime table)
  = select_path file_path q table.
Proof.
  intros Hq. unfold select_path, record_set.
  induction table as [|a table IH]; [done|].
  cbn [map]. rewrite !filter_cons.
  destruct (decide (file_path a = path)) as [Ha|Ha].
  - rewrite bool_decide_eq_true_2 by done. cbn.
    rewrite !decide_False by congruence. exact IH.
  - rewrite bool_decide_eq_false_2 by done.
    destruct (decide (file_path a = q)); by rewrite <- IH.
Qed.

Lemma select_delete_eq path (table : list FileFingerprint) :
  select_path file_path path (delete_path file_path path table) = [].
Proof.
  unfold select_path, delete_path. induction table as [|a table IH]; [done|].
  rewrite filter_cons. destruct (decide (file_path a ≠ path)) as [Ha|Ha]; [|done].
  rewrite filter_cons. by rewrite decide_False.
Qed.

Lemma select_delete_ne path q (table : list FileFingerprint) :
  q ≠ path ->
  select_path file_path q (delete_path file_path path table)
  = select_path file_path q table.
Proof.
  intros Hq. unfold select_path, delete_path.
  induction table as [|a table IH]; [done|].
  rewrite !filter_cons. destruct (decide (file_path a ≠ path)) as [Ha|Ha].
  - rewrite filter_cons. destruct (decide (file_path a = q)); by rewrite IH.
  - rewrite decide_False; [done|]. apply dec_stable in Ha. congruence.
Qed.

Lemma get_last_fingerprint_select path (table table' : list FileFingerprint) :
  select_path file_path path table' = select_path file_path path table ->
  get_last_fingerprint path table' = get_last_fingerprint path table.
Proof. intros H. unfold get_last_fingerprint, table_get. by rewrite H. Qed.

End Lookups.

(** X1. A file that is gone when [set_fingerprint] looks at it, be it when
    the fingerprint is computed or only when [os.stat] is called, makes
    [set_fingerprint] return normally with the rows of that path deleted and
    every other row as it was. *)
Theorem set_fingerprint_missing_file env now path table :
  NoDup (file_path <$> table) ->
  file_fingerprint env now path = Raise FileNotFoundError
  \/ (exists fp, file_fingerprint env now path = Ok fp)
     /\ os_stat_mtime env now path = Raise FileNotFoundError ->
  set_fingerprint env now path None table
  = (Ok tt, delete_path file_path path table)
  /\ get_last_fingerprint path (delete_path file_path path table) = Ok None
  /\ forall q, q ≠ path ->
       get_last_fingerprint q (delete_path file_path path table)
       = get_last_fingerprint q table.
Proof.
  intros Hnd Hgone. split; [|split].
  - unfold set_fingerprint, set_fingerprint_try. cbn.
    destruct Hgone as [Hfp|[[fp Hfp] Hst]]; rewrite Hfp; cbn; [done|].
    destruct (table_get_NoDup table path Hnd) as [[_ ->]|(r & _ & _ & ->)];
      cbn; [by rewrite Hst|].
    destruct (negb _); by rewrite Hst.
  - unfold get_last_fingerprint, table_get. by rewrite select_delete_eq.
  - intros q Hq. apply get_last_fingerprint_select. by apply select_delete_ne.
Qed.

Lemma set_fingerprint_missing_file_witness :
  set_fingerprint gone_env 0 "gone.md" None prune_table
  = (Ok tt, delete_path file_path "gone.md" prune_table)
  /\ get_last_fingerprint "gone.md" (delete_path file_path "gone.md" prune_table)
     = Ok None
  /\ forall q, q ≠ "gone.md" ->
       get_last_fingerprint q (delete_path file_path "gone.md" prune_table)
       = get_last_fingerprint q prune_table.
Proof.
  apply (set_fingerprint_missing_file gone_env 0 "gone.md" prune_table).
  - by_evaluation.
  - left. reflexivity.
Defined.

Section Upsert.
Context (env : environment).

Lemma select_path_nil_absent path (table : list FileFingerprint) :
  select_path file_path path table = [] -> path ∉ file_path <$> table.
Proof.
  intros Hsel (r & -> & Hr)%list_elem_of_fmap.
  assert (Hin : r ∈ select_path file_path (file_path r) table)
    by (by apply list_elem_of_filter).
  rewrite Hsel in Hin. by apply elem_of_nil in Hin.
Qed.

Lemma select_path_app path (t1 t2 : list FileFingerprint) :
  select_path file_path path (t1 ++ t2)
  = select_path file_path path t1 ++ select_path file_path path t2.
Proof. apply filter_app. Qed.

End Upsert.

(** X2. On a table with distinct paths, when the file is there and its
    fingerprint is not the one on record, [set_fingerprint] succeeds, and
    afterwards [get_last_fingerprint] of the path is the new fingerprint,
    the paths are still distinct and the last fingerprint of every other
    path is what it was. *)
Theorem set_then_get_fingerprint env now path fp mtime table :
  NoDup (file_path <$> table) ->
  file_fingerprint env now path = Ok fp ->
  os_stat_mtime env now path = Ok mtime ->
  get_last_fingerprint path table ≠ Ok (Some fp) ->
  exists table',
    set_fingerprint env now path None table = (Ok tt, table')
    /\ get_last_fingerprint path table' = Ok (Some fp)
    /\ NoDup (file_path <$> table')
    /\ forall q, q ≠ path ->
         get_last_fingerprint q table' = get_last_fingerprint q table.
Proof.
  intros Hnd Hfp Hst Hlast.
  destruct (table_get_NoDup table path Hnd) as [[Hsel Hget]|(r & Hsel & Hr & Hget)].
  - exists (table ++ [mkFileFingerprint path fp mtime]).
    split; [by apply set_fingerprint_new|]. split; [|split].
    + unfold get_last_fingerprint, table_get.
      rewrite select_path_app, Hsel. cbn. by rewrite decide_True.
    + rewrite fmap_app. apply NoDup_app. split; [done|]. split.
      * intros q Hq [->|[]%elem_of_nil]%elem_of_cons.
        by apply (select_path_nil_absent path table).
      * apply NoDup_singleton.
    + intros q Hq. apply get_last_fingerprint_select.
      rewrite select_path_app. cbn.
      rewrite decide_False by congruence. apply app_nil_r.
  - assert (Hne : fingerprint r ≠ fp).
    { intros Heq. apply Hlast. unfold get_last_fingerprint.
      by rewrite Hget, Heq. }
    exists (record_set path fp mtime table).
    split; [by apply (set_fingerprint_changed env now path fp mtime table r)|].
    split; [|split].
    + unfold get_last_fingerprint, table_get.
      by rewrite select_record_set_eq, Hsel.
    + by rewrite record_set_paths.
    + intros q Hq. apply get_last_fingerprint_select.
      by apply select_record_set_ne.
Qed.

Lemma set_then_get_fingerprint_witness :
  exists table',
    set_fingerprint demo_env 0 "back.md" None prune_table = (Ok tt, table')
    /\ get_last_fingerprint "back.md" table' = Ok (Some "f00d")
    /\ NoDup (file_path <$> table')
    /\ forall q, q ≠ "back.md" ->
         get_last_fingerprint q table' = get_last_fingerprint q prune_table.
Proof.
  apply (set_then_get_fingerprint demo_env 0 "back.md" "f00d" 1%Q prune_table).
  - by_evaluation.
  - reflexivity.
  - reflexivity.
  - vm_compute. congruence.
Defined.

(** X3. When [file_path] is a unique key, [set_fingerprint] keeps the paths
    of the table distinct, whatever the file system answers and whether it
    returns or raises. *)
Theorem set_fingerprint_keeps_unique env now path given table :
  unique_file_path env = true ->
  NoDup (file_path <$> table) ->
  NoDup (file_path <$> (set_fingerprint env now path given table).2).
Proof.
  intros Huniq Hnd.
  assert (Hdel : NoDup (file_path <$> delete_path file_path path table))
    by (by apply NoDup_paths_filter).
  unfold set_fingerprint, set_fingerprint_try.
  destruct (match str_truthy given with
            | Some f => Ok f
            | None => file_fingerprint env now path
            end) as [fp|[]]; cbn; try done.
  destruct (table_get_NoDup table path Hnd) as [[Hsel ->]|(r & Hsel & Hr & ->)];
    cbn.
  - destruct (os_stat_mtime env now path) as [mtime|[]]; cbn; try done.
    unfold record_create. rewrite Hsel, andb_false_r. cbn.
    rewrite fmap_app. apply NoDup_app. split; [done|]. split.
    + intros q Hq [->|[]%elem_of_nil]%elem_of_cons.
      by apply (select_path_nil_absent path table).
    + apply NoDup_singleton.
  - destruct (negb (String.eqb (fingerprint r) fp));
      destruct (os_stat_mtime env now path) as [mtime|[]]; cbn; try done.
    + by rewrite record_set_paths.
    + unfold record_create. rewrite Huniq, Hsel. cbn. done.
Qed.

Lemma set_fingerprint_keeps_unique_witness :
  NoDup (file_path <$> (set_fingerprint demo_env 0 "kept.md" None prune_table).2).
Proof.
  apply (set_fingerprint_keeps_unique demo_env 0 "kept.md" None prune_table).
  - reflexivity.
  - by_evaluation.
Defined.

(** ** The dispatcher and the filter of [scan_index] *)

(** X4. [is_scannable] accepts exactly the files that [do_scan] hands to a
    scanner: a scannable path is routed to the entry or the category
    scanner, and for any other path [do_scan] returns [None] without calling
    a scanner, whatever the scanners would do. *)
Theorem is_scannable_routed fullpath relpath fixups :
  (is_scannable fullpath = true
   <-> exists c, route (fullpath, relpath, fixups) = Some c)
  /\ (is_scannable fullpath = false ->
      forall env now, do_scan env now (fullpath, relpath, fixups) = PyNone)
  /\ (is_scannable fullpath = true ->
      forall env now, exists c,
        route (fullpath, relpath, fixups) = Some c
        /\ do_scan env now (fullpath, relpath, fixups)
           = match invoke env now c with Ok v => v | Raise _ => PyFalse end).
Proof.
  unfold is_scannable, do_scan, route.
  destruct (ext_in _ ENTRY_TYPES); [|destruct (ext_in _ CATEGORY_TYPES)]; cbn.
  - split; [split; [by eexists|done]|]. split; [done|].
    intros _ env now. by eexists.
  - split; [split; [by eexists|done]|]. split; [done|].
    intros _ env now. by eexists.
  - split; [split; [done|by intros [c [=]]]|]. split; [done|done].
Qed.

(** ** The most recently modified file *)

Lemma not_older_total : Total not_older.
Proof.
  intros a b. unfold not_older.
  destruct (Qlt_le_dec (file_mtime a) (file_mtime b)) as [H|H]; [right|left].
  - by apply Qlt_le_weak.
  - done.
Qed.

Lemma not_older_transitive : Transitive not_older.
Proof. intros a b c Hab Hbc. unfold not_older in *. by eapply Qle_trans. Qed.

(** X5. [last_modified] returns three [None] exactly when the table is
    empty; otherwise it returns the path, modification time and fingerprint
    of a row of the table, and no row of the table has a later modification
    time. *)
Theorem last_modified_latest table :
  (last_modified table = (None, None, None) <-> table = [])
  /\ forall path mtime fp,
       last_modified table = (Some path, Some mtime, Some fp) ->
       mkFileFingerprint path fp mtime ∈ table
       /\ forall r, r ∈ table -> (file_mtime r <= mtime)%Q.
Proof.
  unfold last_modified.
  pose proof (merge_sort_Permutation not_older table) as Hperm.
  pose proof (@StronglySorted_merge_sort _ not_older _
                not_older_transitive not_older_total table) as Hsorted.
  destruct (merge_sort not_older table) as [|file rest].
  - split; [|done]. split; [|done]. intros _.
    by apply Permutation_nil_l in Hperm.
  - split.
    + split; [done|]. intros ->. by apply Permutation_nil_r in Hperm.
    + intros path mtime fp [= <- <- <-].
      apply StronglySorted_inv in Hsorted as [_ Hhead]. split.
      * rewrite <- Hperm. destruct file. apply elem_of_cons. by left.
      * intros r Hr. rewrite <- Hperm in Hr.
        apply elem_of_cons in Hr as [->|Hr]; [apply Qle_refl|].
        rewrite Forall_forall in Hhead. by apply Hhead.
Qed.

(** ** Pruning never adds *)

Section Pruning_more.
Context {row : Type} (path_of : row -> string) (env : environment).

Lemma kill_sublist now p (table : list row) :
  kill path_of env now p table `sublist_of` table.
Proof.
  unfold kill. destruct (table_get path_of p table) as [[item|]|e]; try done.
  destruct (negb _); [|done]. apply sublist_filter.
Qed.

Lemma kill_each_sublist removed : forall now (table : list row),
  kill_each path_of env now removed table `sublist_of` table.
Proof.
  induction removed as [|p removed IH]; intros now table; cbn; [done|].
  etrans; [apply IH|apply kill_sublist].
Qed.

Lemma fill_nil table : forall now,
  (forall i r, table !! i = Some r ->
     os_path_isfile env (now + i) (path_of r) = true) ->
  fill path_of env now table = [].
Proof.
  induction table as [|a table IH]; intros now Hall; cbn; [done|].
  rewrite <- (Nat.add_0_r now) at 1. rewrite (Hall 0 a eq_refl). cbn.
  apply IH. intros i r Hi. replace (S now + i) with (now + S i) by lia.
  by apply Hall.
Qed.

End Pruning_more.

(** X6. Whatever the table holds, rows of equal path included,
    [prune_missing] only removes rows: what it leaves is a sublist of the
    table, in the same order. And when every file is there as its row is
    read, the table is left as it is. *)
Theorem prune_missing_only_removes {row : Type} (path_of : row -> string)
    env now (table : list row) :
  prune_missing path_of env now table `sublist_of` table
  /\ ((forall i r, table !! i = Some r ->
         os_path_isfile env (now + i) (path_of r) = true) ->
      prune_missing path_of env now table = table).
Proof.
  split; [apply kill_each_sublist|].
  intros Hall. unfold prune_missing. by rewrite (fill_nil path_of env table now Hall).
Qed.

(** ** The tree scanner *)

Section Tree.
Context (env : environment) (relpath : string -> string -> string).

(** What makes [scan_directory] enqueue the file at position [i]. *)
Lemma scan_directory_sound content_dir root table files : forall now item,
  item ∈ scan_directory env relpath content_dir now root files table ->
  exists i file fp,
    files !! i = Some file
    /\ item = (path_join root file,
               Some (relpath (path_join root file) content_dir), false)
    /\ is_scannable (path_join root file) = true
    /\ file_fingerprint env (now + i) (path_join root file) = Ok fp
    /\ get_last_fingerprint (path_join root file) table ≠ Ok (Some fp).
Proof.
  induction files as [|file files IH]; intros now item Hin; cbn in Hin.
  - by apply elem_of_nil in Hin.
  - assert (Hlater :
      item ∈ scan_directory env relpath content_dir (S now) root files table ->
      exists i file0 fp,
        (file :: files) !! i = Some file0
        /\ item = (path_join root file0,
                   Some (relpath (path_join root file0) content_dir), false)
        /\ is_scannable (path_join root file0) = true
        /\ file_fingerprint env (now + i) (path_join root file0) = Ok fp
        /\ get_last_fingerprint (path_join root file0) table ≠ Ok (Some fp)).
    { intros (i & f & fp & Hi & Hitem & Hs & Hfp & Hlast)%IH.
      exists (S i), f, fp. split_and!; try done.
      by replace (now + S i) with (S now + i) by lia. }
    destruct (is_scannable (path_join root file)) eqn:Hscan; cbn in Hin;
      [|by apply Hlater].
    destruct (file_fingerprint env now (path_join root file)) as [fp|e] eqn:Hfp;
      [|by apply elem_of_nil in Hin].
    destruct (get_last_fingerprint (path_join root file) table)
      as [last|e] eqn:Hlast; [|by apply elem_of_nil in Hin].
    destruct (bool_decide (Some fp ≠ last)) eqn:Hdiff; [|by apply Hlater].
    apply elem_of_cons in Hin as [->|Hin]; [|by apply Hlater].
    exists 0, file, fp. rewrite Nat.add_0_r. split_and!; try done.
    apply bool_decide_eq_true in Hdiff. congruence.
Qed.

Lemma scan_directory_complete content_dir root table files : forall now,
  (forall i file, files !! i = Some file ->
     is_scannable (path_join root file) = true ->
     (exists fp, file_fingerprint env (now + i) (path_join root file) = Ok fp)
     /\ exists last, get_last_fingerprint (path_join root file) table = Ok last) ->
  forall i file fp,
    files !! i = Some file ->
    is_scannable (path_join root file) = true ->
    file_fingerprint env (now + i) (path_join root file) = Ok fp ->
    get_last_fingerprint (path_join root file) table ≠ Ok (Some fp) ->
    (path_join root file, Some (relpath (path_join root file) content_dir), false)
    ∈ scan_directory env relpath content_dir now root files table.
Proof.
  induction files as [|file0 files IH]; intros now Hgood i file fp Hi Hs Hfp Hlast.
  - by rewrite lookup_nil in Hi.
  - assert (Htail : forall j f, files !! j = Some f ->
        is_scannable (path_join root f) = true ->
        (exists fp, file_fingerprint env (S now + j) (path_join root f) = Ok fp)
        /\ exists last, get_last_fingerprint (path_join root f) table = Ok last).
    { intros j f Hj Hsj. replace (S now + j) with (now + S j) by lia.
      by apply Hgood. }
    assert (Hrest : forall j, i = S j ->
      (path_join root file,
       Some (relpath (path_join root file) content_dir), false)
      ∈ scan_directory env relpath content_dir (S now) root files table).
    { intros j ->. apply (IH (S now) Htail j file fp); try done.
      by replace (S now + j) with (now + S j) by lia. }
    cbn. destruct (is_scannable (path_join root file0)) eqn:Hs0; cbn.
    + destruct (Hgood 0 file0 eq_refl Hs0) as [[fp0 Hfp0] [last0 Hlast0]].
      rewrite Nat.add_0_r in Hfp0. rewrite Hfp0, Hlast0.
      destruct i as [|j].
      * cbn in Hi. injection Hi as ->. rewrite Nat.add_0_r in Hfp.
        assert (fp0 = fp) as -> by congruence.
        rewrite bool_decide_eq_true_2 by congruence.
        apply elem_of_cons. by left.
      * destruct (bool_decide _); [apply elem_of_cons; right|]; by apply (Hrest j).
    + destruct i as [|j]; [|by apply (Hrest j)].
      cbn in Hi. injection Hi as ->. congruence.
Qed.

End Tree.

(** X7. When no fingerprint computation and no table lookup raises,
    [scan_directory] enqueues exactly what has changed: it calls
    [scan_file] for a file of the listing if and only if the file is
    scannable and its fingerprint, computed when the file is reached, is not
    the one on record; the call carries the joined path, the relative path
    and fixups unset. *)
Theorem scan_directory_exact env relpath content_dir now root files table :
  (forall i file, files !! i = Some file ->
     is_scannable (path_join root file) = true ->
     (exists fp, file_fingerprint env (now + i) (path_join root file) = Ok fp)
     /\ exists last, get_last_fingerprint (path_join root file) table = Ok last) ->
  forall item,
    item ∈ scan_directory env relpath content_dir now root files table
    <-> exists i file fp,
          files !! i = Some file
          /\ item = (path_join root file,
                     Some (relpath (path_join root file) content_dir), false)
          /\ is_scannable (path_join root file) = true
          /\ file_fingerprint env (now + i) (path_join root file) = Ok fp
          /\ get_last_fingerprint (path_join root file) table ≠ Ok (Some fp).
Proof.
  intros Hgood item. split; [apply scan_directory_sound|].
  intros (i & file & fp & Hi & -> & Hs & Hfp & Hlast).
  by apply (scan_directory_complete env relpath content_dir root table files
              now Hgood i file fp).
Qed.

Lemma scan_directory_exact_witness :
  scan_directory demo_env demo_relpath "content" 0 "content" demo_listing demo_table
  = [("content/blog.cat", Some "blog.cat", false)]
  /\ (("content/blog.cat", Some "blog.cat", false)
      ∈ scan_directory demo_env demo_relpath "content" 0 "content"
          demo_listing demo_table).
Proof.
  split; [vm_compute; reflexivity|].
  apply (scan_directory_exact demo_env demo_relpath "content" 0 "content"
           demo_listing demo_table).
  - intros [|[|[|i]]] file; cbn; intros [= <-] Hs; try done;
      split; by eexists.
  - exists 2, "blog.cat", "f00d". split_and!; try done.
Defined.

(** X8. A file that [set_fingerprint] has just put on record is not enqueued
    again by [scan_directory] as long as its fingerprint stays the same. *)
Theorem scan_directory_skips_fingerprinted
    env relpath content_dir now later root file fp mtime table :
  NoDup (file_path <$> table) ->
  file_fingerprint env now (path_join root file) = Ok fp ->
  os_stat_mtime env now (path_join root file) = Ok mtime ->
  get_last_fingerprint (path_join root file) table ≠ Ok (Some fp) ->
  file_fingerprint env later (path_join root file) = Ok fp ->
  scan_directory env relpath content_dir later root [file]
    (set_fingerprint env now (path_join root file) None table).2
  = [].
Proof.
  intros Hnd Hfp Hst Hlast Hsame.
  destruct (set_then_get_fingerprint env now (path_join root file) fp mtime table
              Hnd Hfp Hst Hlast) as (table' & -> & Hget & _).
  cbn. destruct (is_scannable _); cbn; [|done].
  rewrite Hsame, Hget. by rewrite bool_decide_eq_false_2 by (by intros []).
Qed.

Lemma scan_directory_skips_fingerprinted_witness :
  scan_directory demo_env demo_relpath "content" 7 "content" ["blog.cat"]
    (set_fingerprint demo_env 0 (path_join "content" "blog.cat") None demo_table).2
  = [].
Proof.
  apply (scan_directory_skips_fingerprinted demo_env demo_relpath "content" 0 7
           "content" "blog.cat" "f00d" 1%Q demo_table).
  - by_evaluation.
  - reflexivity.
  - reflexivity.
  - vm_compute. congruence.
  - reflexivity.
Defined.

(** X9. An exception while a scannable file is fingerprinted, a file deleted
    since the directory was listed included, ends [scan_directory] there: the
    files before it are handled as if the listing had stopped short of it,
    and no file after it is enqueued, changed or not. *)
Theorem scan_directory_aborts env relpath content_dir root table e files :
  forall now i file,
    files !! i = Some file ->
    is_scannable (path_join root file) = true ->
    file_fingerprint env (now + i) (path_join root file) = Raise e ->
    scan_directory env relpath content_dir now root files table
    = scan_directory env relpath content_dir now root (take i files) table.
Proof.
  induction files as [|file0 files IH]; intros now i file Hi Hs Hfp.
  - by rewrite lookup_nil in Hi.
  - destruct i as [|j].
    + cbn in Hi. injection Hi as ->. rewrite Nat.add_0_r in Hfp.
      cbn. by rewrite Hs, Hfp.
    + cbn in Hi. replace (now + S j) with (S now + j) in Hfp by lia.
      pose proof (IH (S now) j file Hi Hs Hfp) as Hrest.
      cbn. destruct (is_scannable (path_join root file0)); cbn; [|done].
      destruct (file_fingerprint env now (path_join root file0)); [|done].
      destruct (get_last_fingerprint _ _); [|done].
      destruct (bool_decide _); by rewrite Hrest.
Qed.

Lemma scan_directory_aborts_witness :
  scan_directory gone_env demo_relpath "" 0 "" ["a.md"; "gone.md"; "blog.cat"] []
  = scan_directory gone_env demo_relpath "" 0 ""
      (take 1 ["a.md"; "gone.md"; "blog.cat"]) [].
Proof.
  apply (scan_directory_aborts gone_env demo_relpath "" "" [] FileNotFoundError
           ["a.md"; "gone.md"; "blog.cat"] 0 1 "gone.md"); reflexivity.
Defined.
(** ** The scheduler: arming, debounce, termination, provenance *)

Section Arming.
Context (env : environment).

Lemma invariant_scan_file_add item s : invariant s -> invariant (scan_file_add item s).
Proof. by intros [Hf Hr Hd]. Qed.

End Arming.

(** X10. A call of [scan_file] that finds the worker idle, or a drain already
    armed, leaves the item pending with a drain armed; and the call is the
    two moves [Call_scan_file], [Call_schedule] of the scheduler. *)
Theorem scan_file_arms env acts s item :
  exec env acts init = Some s ->
  worker s = Idle \/ armed s = true ->
  item ∈ _pending (scan_file env item s)
  /\ armed (scan_file env item s) = true
  /\ exec env [Call_scan_file item; Call_schedule] s
     = Some (tick (tick (set_callers (callers s) (scan_file env item s)))).
Proof.
  intros Hexec Hready.
  pose proof (exec_invariant env acts s Hexec) as Hinv.
  split; [|split].
  - unfold scan_file.
    destruct (schedule_frame (wait_time env) (scan_file_add item s)) as (-> & _).
    cbn. apply elem_of_union. left. by apply elem_of_singleton.
  - unfold scan_file. destruct Hready as [Hidle|Harmed].
    + apply schedule_arms; [by apply invariant_scan_file_add|done].
    + by apply armed_schedule.
  - apply scan_file_moves.
Qed.

Lemma scan_file_arms_witness :
  item_b ∈ _pending (scan_file demo_env item_b after_burst_a)
  /\ armed (scan_file demo_env item_b after_burst_a) = true
  /\ exec demo_env [Call_scan_file item_b; Call_schedule] after_burst_a
     = Some (tick (tick (set_callers (callers after_burst_a)
                           (scan_file demo_env item_b after_burst_a)))).
Proof.
  apply (scan_file_arms demo_env burst_a after_burst_a item_b).
  - vm_compute. reflexivity.
  - left. vm_compute. reflexivity.
Defined.

Section Debounce.
Context (env : environment).








End Debounce.



Section Termination.
Context (env : environment).




Lemma potential_schedule_busy wait s :
  invariant s -> worker s ≠ Idle -> potential (_schedule wait s) = potential s.
Proof. intros Hinv Hw. by rewrite (schedule_busy wait s Hinv Hw). Qed.





End Termination.



(** Unfolds the counters of a history that ends in known events. *)
Ltac count_history :=
  unfold failures, passes, attempts, scans; cbn;
  rewrite ?omap_app, ?fmap_app, ?filter_app, ?length_app; cbn.

Section Once_per_pass.
Context (env : environment).

(** A pass visits a snapshot without repetition: what is left of its loop
    has no duplicates, and an item still in the loop has been attempted less
    often than passes were started. *)
Lemma once_work x s s' :
  invariant s ->
  NoDup (todo_of (worker s))
  /\ attempts x s + (if in_loop x (todo_of (worker s)) then 1 else 0) <= passes s ->
  work env s = Some s' ->
  NoDup (todo_of (worker s'))
  /\ attempts x s' + (if in_loop x (todo_of (worker s')) then 1 else 0) <= passes s'.
Proof.
  intros Hinv [Hnd Hle] Hwork.
  pose proof (schedule_busy (wait_time env) s Hinv) as Hbusy.
  unfold work in *.
  destruct s as [P R F N Q W C FP CL H]; cbn in *.
  destruct W as [|h items [|y todo]|h items todo|h]; cbn in *.
  - destruct Q as [|t queue]; [done|]. injection Hwork as <-.
    rewrite not_todo_nil in Hle.
    destruct t.
    + cbn. by rewrite not_todo_nil.
    + cbn. split; [apply NoDup_iteration_order|].
      revert Hle. count_history. destruct (in_loop _ _); lia.
    + match goal with
      | |- context [_schedule 0%Q ?st] =>
          destruct (schedule_frame 0%Q st) as (_ & Hwk & Hh & _)
      end.
      rewrite Hwk. cbn. rewrite not_todo_nil. split; [done|].
      revert Hle. unfold attempts, passes, scans. by rewrite Hh.
    + cbn. by rewrite not_todo_nil.
    + cbn. by rewrite not_todo_nil.
    + cbn. by rewrite not_todo_nil.
  - injection Hwork as <-. unfold _scan_pending_catchup.
    by destruct (bool_decide _).
  - injection Hwork as <-. destruct y as [[p r] fx]. unfold _scan_file.
    apply NoDup_cons in Hnd as [Hy Hnd].
    destruct (decide (x = (p, r, fx))) as [->|Hne].
    + rewrite in_loop_head in Hle.
      assert (Hout : in_loop (p, r, fx) todo = false) by (by apply in_loop_false).
      destruct (is_False _ && negb fx);
        [|destruct (set_fingerprint _ _ _ _ _) as [[[]|e] table]];
        cbn; rewrite ?Hout, ?not_todo_nil; (split; [done || constructor|]);
        revert Hle; count_history; rewrite decide_True by done; cbn; lia.
    + rewrite (in_loop_tail x (p, r, fx) todo Hne) in Hle.
      destruct (is_False _ && negb fx);
        [|destruct (set_fingerprint _ _ _ _ _) as [[[]|e] table]];
        cbn; rewrite ?not_todo_nil; (split; [done || constructor|]);
        revert Hle; count_history; rewrite decide_False by done; cbn;
        destruct (in_loop x todo); lia.
  - injection Hwork as <-. rewrite Hbusy by done. done.
  - injection Hwork as <-. cbn. done.
Qed.

Lemma once_step x a s s' :
  invariant s ->
  NoDup (todo_of (worker s))
  /\ attempts x s + (if in_loop x (todo_of (worker s)) then 1 else 0) <= passes s ->
  step env a s = Some s' ->
  NoDup (todo_of (worker s'))
  /\ attempts x s' + (if in_loop x (todo_of (worker s')) then 1 else 0) <= passes s'.
Proof.
  intros Hinv HJ Hstep. destruct a as [item| |t|]; cbn in Hstep.
  - by injection Hstep as <-.
  - destruct (callers s) as [|n]; [done|]. injection Hstep as <-.
    destruct (schedule_frame (wait_time env) s) as (_ & Hwk & Hh & _).
    revert HJ. cbn. rewrite Hwk. unfold attempts, passes, scans. cbn.
    by rewrite Hh.
  - destruct (background t); [|done]. by injection Hstep as <-.
  - destruct (work env s) as [s1|] eqn:Hwork; [|done]. injection Hstep as <-.
    by apply (once_work x s s1).
Qed.

Lemma once_exec x acts : forall s s',
  invariant s ->
  NoDup (todo_of (worker s))
  /\ attempts x s + (if in_loop x (todo_of (worker s)) then 1 else 0) <= passes s ->
  exec env acts s = Some s' ->
  NoDup (todo_of (worker s'))
  /\ attempts x s' + (if in_loop x (todo_of (worker s')) then 1 else 0) <= passes s'.
Proof.
  induction acts as [|a acts IH]; intros s s' Hinv HJ Hexec; cbn in Hexec.
  - by injection Hexec as <-.
  - destruct (step env a s) as [s1|] eqn:Hstep; [|done].
    apply (IH s1); [by apply (invariant_step env a s)| |done].
    by apply (once_step x a s).
Qed.

End Once_per_pass.

(** X13. However callers, [scan_index] and the worker interleave, no item is
    handed to [_scan_file] more often than [_scan_pending] has swapped the
    pending set: one pass scans an item at most once, and the loop of a
    running pass never holds an item twice. *)
Theorem one_scan_per_pass env acts s x :
  exec env acts init = Some s ->
  attempts x s <= passes s /\ NoDup (todo_of (worker s)).
Proof.
  intros Hexec.
  destruct (once_exec env x acts init s) as [Hnd Hle];
    [apply invariant_init| |done|].
  - split; [constructor|]. cbn. rewrite not_todo_nil. done.
  - split; [|done]. destruct (in_loop _ _); lia.
Qed.

Lemma one_scan_per_pass_witness :
  attempts item_a during_pass <= passes during_pass
  /\ NoDup (todo_of (worker during_pass)).
Proof.
  apply (one_scan_per_pass demo_env during_pass_acts during_pass item_a).
  vm_compute. reflexivity.
Defined.

Section Provenance.
Context (env : environment).

Lemma provenance_step R a s s' :
  (forall x, outstanding s x \/ x ∈ (scans s).*1 ->
     x ∈ R \/ exists y, y ∈ R /\ y.2 = false /\ x = fixup_twin y) ->
  step env a s = Some s' ->
  forall x, outstanding s' x \/ x ∈ (scans s').*1 ->
     x ∈ R ++ requested [a]
     \/ exists y, y ∈ R ++ requested [a] /\ y.2 = false /\ x = fixup_twin y.
Proof.
  intros HR Hstep x Hx.
  assert (Hweak : x ∈ R \/ (exists y, y ∈ R /\ y.2 = false /\ x = fixup_twin y) ->
                  x ∈ R ++ requested [a]
                  \/ exists y, y ∈ R ++ requested [a] /\ y.2 = false
                               /\ x = fixup_twin y).
  { intros [?|(y & ? & ? & ?)]; [left|right; exists y; split_and!; try done];
      apply elem_of_app; by left. }
  destruct a as [item| |t|]; cbn in Hstep.
  - injection Hstep as <-. unfold outstanding, scans in Hx. cbn in Hx.
    destruct Hx as [[[Hx|Hx]%elem_of_union|Hx]|Hx].
    + apply elem_of_singleton in Hx as ->. left. cbn.
      apply elem_of_app. right. by apply list_elem_of_singleton.
    + apply Hweak, HR. by left; left.
    + apply Hweak, HR. by left; right.
    + apply Hweak, HR. by right.
  - destruct (callers s) as [|n]; [done|]. injection Hstep as <-.
    destruct (schedule_frame (wait_time env) s) as (Hp & Hwk & Hh & _).
    unfold outstanding, scans in Hx. cbn in Hx. rewrite Hp, Hwk, Hh in Hx.
    by apply Hweak, HR.
  - destruct (background t); [|done]. injection Hstep as <-.
    by apply Hweak, HR.
  - destruct (work env s) as [s1|] eqn:Hwork; [|done]. injection Hstep as <-.
    apply Hweak.
    assert (Hx1 : outstanding s1 x \/ x ∈ (scans s1).*1) by exact Hx.
    clear Hx. destruct Hx1 as [Hx|Hx].
    + destruct (work_outstanding env s s1 x Hwork Hx)
        as [Hold|(h & items & p & r & todo & Hw & ->)]; [apply HR; by left|].
      assert (Hhead : outstanding s (p, r, false)).
      { right. rewrite Hw. cbn. apply elem_of_cons. by left. }
      destruct (HR (p, r, false) (or_introl Hhead)) as [Hin|(y & _ & _ & Hy)].
      * right. by exists (p, r, false).
      * by destruct y as [[? ?] ?].
    + pose proof (work_scans env s s1 Hwork) as Hscans.
      destruct (worker s) as [|h items [|y todo]|h items todo|h] eqn:Hw;
        try (apply HR; right; by rewrite <- Hscans).
      rewrite Hscans, fmap_app in Hx. cbn in Hx.
      apply elem_of_app in Hx as [Hx|Hx]; [apply HR; by right|].
      apply list_elem_of_singleton in Hx as ->.
      apply HR. left. right. rewrite Hw. cbn. apply elem_of_cons. by left.
Qed.

Lemma provenance_exec acts : forall R s s',
  (forall x, outstanding s x \/ x ∈ (scans s).*1 ->
     x ∈ R \/ exists y, y ∈ R /\ y.2 = false /\ x = fixup_twin y) ->
  exec env acts s = Some s' ->
  forall x, outstanding s' x \/ x ∈ (scans s').*1 ->
     x ∈ R ++ requested acts
     \/ exists y, y ∈ R ++ requested acts /\ y.2 = false /\ x = fixup_twin y.
Proof.
  induction acts as [|a acts IH]; intros R s s' HR Hexec; cbn in Hexec.
  - injection Hexec as <-. unfold requested. cbn. rewrite app_nil_r. exact HR.
  - destruct (step env a s) as [s1|] eqn:Hstep; [|done].
    replace (R ++ requested (a :: acts))
      with ((R ++ requested [a]) ++ requested acts).
    + apply (IH _ s1); [|done]. by apply (provenance_step R a s).
    + rewrite <- app_assoc. f_equal. unfold requested. cbn.
      by destruct a.
Qed.

End Provenance.

(** X14. The indexer invents no work: whatever is pending, left in the loop
    of a pass or was ever handed to [_scan_file] is an item some caller
    passed to [scan_file], or the fixup retry (same paths, fixups set) of
    such an item that was enqueued without fixups. *)
Theorem scanned_was_requested env acts s x :
  exec env acts init = Some s ->
  outstanding s x \/ x ∈ (scans s).*1 ->
  x ∈ requested acts
  \/ exists y, y ∈ requested acts /\ y.2 = false /\ x = fixup_twin y.
Proof.
  intros Hexec Hx.
  apply (provenance_exec env acts [] init s); [|done|done].
  intros y [[Hy|Hy]|Hy].
  - cbn in Hy. by apply elem_of_empty in Hy.
  - cbn in Hy. by apply elem_of_nil in Hy.
  - unfold scans in Hy. cbn in Hy. by apply elem_of_nil in Hy.
Qed.

Lemma scanned_was_requested_witness :
  fixup_twin item_a ∈ requested fixup_acts
  \/ exists y, y ∈ requested fixup_acts /\ y.2 = false
               /\ fixup_twin item_a = fixup_twin y.
Proof.
  apply (scanned_was_requested demo_env fixup_acts after_fixup (fixup_twin item_a)).
  - vm_compute. reflexivity.
  - right. by_evaluation.
Defined.

(** ** The slug of an entry *)

Section Slug.

Lemma alnum_not_hyphen c : alnum c = true -> c ≠ hyphen.
Proof. unfold alnum, hyphen. intros H ->. done. Qed.

Lemma alnum_not_space c : alnum c = true -> isspace c = false.
Proof.
  unfold alnum, isspace. intros H.
  repeat match goal with
         | |- (_ || _) = false => apply orb_false_intro
         | |- (_ && _) = false => apply andb_false_iff
         end; lia.
Qed.

Lemma sub_runs_shaped inside s : slug_shaped inside (sub_runs inside s) = true.
Proof.
  revert inside. induction s as [|c s IH]; intros inside; [done|].
  cbn. destruct (alnum c) eqn:Hc.
  - cbn. by rewrite Hc.
  - destruct inside; [apply IH|].
    cbn. rewrite IH. done.
Qed.

Lemma shaped_fixed inside s : slug_shaped inside s = true -> sub_runs inside s = s.
Proof.
  revert inside. induction s as [|c s IH]; intros inside H; [done|].
  cbn in *. destruct (alnum c).
  - by rewrite IH.
  - apply andb_true_iff in H as [[Hc Hin]%andb_true_iff Hs].
    destruct inside; [done|]. apply Z.eqb_eq in Hc as ->. by rewrite IH.
Qed.

Lemma shaped_alphabet inside s :
  slug_shaped inside s = true -> Forall (fun c => alnum c = true \/ c = hyphen) s.
Proof.
  revert inside. induction s as [|c s IH]; intros inside H; [constructor|].
  cbn in H. destruct (alnum c) eqn:Hc.
  - constructor; [by left|by apply (IH false)].
  - apply andb_true_iff in H as [[Hh _]%andb_true_iff Hs].
    constructor; [right; by apply Z.eqb_eq|by apply (IH true)].
Qed.

Lemma shaped_single inside s i :
  slug_shaped inside s = true ->
  s !! i = Some hyphen -> s !! S i ≠ Some hyphen.
Proof.
  revert inside i. induction s as [|c s IH]; intros inside i H Hi; [done|].
  cbn in H. destruct i as [|i].
  - injection Hi as ->. cbn in *.
    apply andb_true_iff in H as [_ Hs].
    destruct s as [|d s]; [done|]. cbn in *.
    destruct (alnum d) eqn:Hd.
    + intros [= ->]. done.
    + by rewrite andb_false_r in Hs.
  - cbn in Hi |- *. destruct (alnum c).
    + by apply (IH false).
    + apply andb_true_iff in H as [_ Hs]. by apply (IH true).
Qed.

Lemma lstrip_fixed s :
  match s with c :: _ => isspace c = false | [] => True end -> lstrip s = s.
Proof. destruct s as [|c s]; [done|]. cbn. by intros ->. Qed.

Lemma strip_fixed s : Forall (fun c => isspace c = false) s -> strip s = s.
Proof.
  intros H. unfold strip.
  rewrite (lstrip_fixed s) by (by destruct H).
  rewrite lstrip_fixed; [apply rev_involutive|].
  assert (Hr : Forall (fun c => isspace c = false) (rev s))
    by (by apply Forall_rev).
  by destruct Hr.
Qed.

Lemma filter_lstrip s : List.filter alnum (lstrip s) = List.filter alnum s.
Proof.
  induction s as [|c s IH]; [done|]. cbn.
  destruct (isspace c) eqn:Hs; [|done].
  destruct (alnum c) eqn:Hc; [|done].
  apply alnum_not_space in Hc. congruence.
Qed.

Lemma filter_rev_alnum s : List.filter alnum (rev s) = rev (List.filter alnum s).
Proof.
  induction s as [|c s IH]; [done|]. cbn.
  rewrite List.filter_app, IH. cbn. destruct (alnum c); cbn; [done|].
  by rewrite app_nil_r.
Qed.

Lemma filter_strip s : List.filter alnum (strip s) = List.filter alnum s.
Proof.
  unfold strip.
  by rewrite filter_rev_alnum, filter_lstrip, filter_rev_alnum, rev_involutive,
    filter_lstrip.
Qed.

Lemma filter_sub_runs inside s :
  List.filter alnum (sub_runs inside s) = List.filter alnum s.
Proof.
  revert inside. induction s as [|c s IH]; intros inside; [done|].
  cbn. destruct (alnum c) eqn:Hc.
  - cbn. by rewrite Hc, IH.
  - destruct inside; [apply IH|]. cbn. by rewrite IH.
Qed.

End Slug.

(** X15. The slug [make_slug] makes of any title consists of ASCII letters,
    digits and hyphens only, never has two hyphens in a row, keeps the
    letters and digits of the title in their order, and is its own slug
    ([make_slug] is idempotent). *)
Theorem make_slug_shape title :
  Forall (fun c => alnum c = true \/ c = hyphen) (make_slug title)
  /\ (forall i, make_slug title !! i = Some hyphen ->
                make_slug title !! S i ≠ Some hyphen)
  /\ List.filter alnum (make_slug title) = List.filter alnum title
  /\ make_slug (make_slug title) = make_slug title.
Proof.
  pose proof (sub_runs_shaped false (strip title)) as Hshape.
  fold (make_slug title) in Hshape.
  pose proof (shaped_alphabet false _ Hshape) as Halpha.
  split_and!.
  - done.
  - intros i. by apply (shaped_single false).
  - unfold make_slug. by rewrite filter_sub_runs, filter_strip.
  - unfold make_slug at 1. rewrite strip_fixed.
    + by apply shaped_fixed.
    + eapply Forall_impl; [exact Halpha|]. cbn.
      intros c [Hc| ->]; [by apply alnum_not_space|done].
Qed.

(** ** What is left when the worker rests *)

Section Rest.
Context (env : environment).






End Rest.


